(** * NRL Picks 2.0: the rating, pricing and staking core of nrl_picks_v2.py

    A shallow embedding of the predictive-and-decision pipeline of
    [nrl_picks_v2.py]: the logistic transform, two-way de-vigorization, the
    fractional Kelly stake, the Elo replay [run_elo], the grid search
    [tune_elo] and the pick aggregation loop of [main], followed by the
    properties the specification states about them.

    Number model.  Python [float] values are modelled by real numbers with
    exact arithmetic ([10.0**y] is [Rpower 10 y], [math.log] is [ln],
    [math.log1p m] is [ln (1 + m)]).  Rounding, overflow, infinities and NaN
    of binary64 are outside this model; a statement below is a statement
    about the exact-arithmetic reading of the code unless it names a
    rounding.

    The two probability utilities promise ranges, and a range is where
    binary64 and exact arithmetic part.  They are therefore read twice more:
    with every operation followed by a rounding ([logistic_rnd],
    [devig_two_way_rnd]), and on the kernel's binary64 numbers
    ([logistic_f64], [devig_two_way_f64]).

    Source text.  [run_elo] reads the away score as [r.as].  [as] is a
    reserved word of Python, so the interpreter rejects that spelling when it
    parses the file; the embedding reads it as what it denotes, the column
    ["as"] of the row (field [as_] below). *)

From Stdlib Require Import Reals Lra Lia ZArith List.
From Stdlib Require Import Sorting.Sorted Sorting.Permutation.
From Stdlib Require Import Strings.String Strings.Ascii Structures.OrderedTypeEx.
From Stdlib Require Import Zfloor.
From Stdlib Require Import PrimFloat.
From stdpp Require Import gmap strings.

Local Open Scope R_scope.

(** * Data model *)

(** ** Python values that reach the numeric functions

    Prices are read from decoded JSON, so a price may be any JSON scalar.
    [isinstance(x, (int, float))] holds of [bool], [int] and [float]. *)

Inductive pyval : Type :=
  | PyNone
  | PyBool (b : bool)
  | PyInt (z : Z)
  | PyFloat (r : R)
  | PyStr (s : string).

Definition is_number (v : pyval) : bool :=
  match v with
  | PyBool _ | PyInt _ | PyFloat _ => true
  | PyNone | PyStr _ => false
  end.

(** The numeric value Python's arithmetic and comparisons use. *)
Definition num (v : pyval) : R :=
  match v with
  | PyBool true => 1
  | PyBool false => 0
  | PyInt z => IZR z
  | PyFloat r => r
  | PyNone | PyStr _ => 0
  end.

(** A price is unusable when it is not a number or is at most 1. *)
Definition invalid_price (v : pyval) : Prop :=
  is_number v = false \/ (is_number v = true /\ num v <= 1).

(** ** Completed matches: one row of the history frame *)

Record Match : Type := mkMatch {
  home : string;
  away : string;
  hs : R;
  as_ : R
}.

(** ** Upcoming contests, as decoded from the odds feed *)

Record Outcome : Type := mkOutcome {
  o_name : option string;      (* o.get("name") *)
  o_price : pyval              (* o.get("price"), PyNone when absent *)
}.

Record Market : Type := mkMarket {
  m_key : option string;       (* m.get("key") *)
  outcomes : list Outcome      (* m.get("outcomes",[]) *)
}.

Record Bookmaker : Type := mkBookmaker {
  bk_key : option string;      (* bk.get("key") *)
  markets : list Market        (* bk.get("markets",[]) *)
}.

(** A kickoff as [to_aest] returns it: a wall-clock time in Brisbane. *)
Record DateTime : Type := mkDateTime {
  year : nat; month : nat; day : nat;
  hour : nat; minute : nat; second : nat
}.

Record Event : Type := mkEvent {
  home_team : option string;   (* ev.get("home_team") *)
  away_team : option string;   (* ev.get("away_team") *)
  commence_time : DateTime;    (* to_aest(ev["commence_time"]) *)
  bookmakers : list Bookmaker  (* ev.get("bookmakers",[]) *)
}.

(** ** Recommendation rows

    The columns of the report, without "Generated (AEST)", which reads the
    wall clock and takes no part in any property below. *)

Record Row : Type := mkRow {
  kickoff : string;            (* "Kickoff (AEST)" *)
  match_label : string;        (* "Match" *)
  pick_label : string;         (* "Pick" *)
  book : option string;        (* "Book" *)
  best_odds : pyval;           (* "Best Odds" *)
  market_p : R;                (* "Market p (de-vig)" *)
  model_p : R;                 (* "Model p (Elo)" *)
  edge : R;                    (* "Edge" *)
  kelly_pct : R;               (* "Kelly % (½-Kelly, cap)" *)
  stake : R;                   (* "Stake (Bankroll=...)" *)
  profit : R;                  (* "Potential Profit (if win)" *)
  payout : R;                  (* "Potential Return (if win)" *)
  ev_profit : R                (* "EV Profit (model)" *)
}.

(** * Probability utilities *)

(** [def logistic(x): return 1.0/(1.0+10.0**(-x/400.0))] *)
Definition logistic (x : R) : R := 1 / (1 + Rpower 10 (- x / 400)).

(** [devig_two_way(a,b)]: the pair [(None,None)] is [None] here. *)
Definition devig_two_way (a b : pyval) : option (R * R) :=
  if negb (is_number a && is_number b) then None
  else if Rle_dec (num a) 1 then None
  else if Rle_dec (num b) 1 then None
  else
    let pa := 1 / num a in
    let pb := 1 / num b in
    let s := pa + pb in
    Some (pa / s, pb / s).

(** * Rating engine *)

(** [ratings.get(team, 1500.0)] *)
Definition rating_of (ratings : gmap string R) (team : string) : R :=
  default 1500 (ratings !! team).

(** The loop state of [run_elo]: [ratings], [ll] and [n]. *)
Record EloState : Type := mkEloState {
  ratings : gmap string R;
  ll : R;
  n : nat
}.

Definition eps : R := 1 / 10 ^ 9.

Definition elo_init : EloState := {| ratings := ∅; ll := 0; n := 0 |}.

(** The three quantities a pass of the loop computes before it writes. *)
Definition p_home_of (HFA : R) (rt : gmap string R) (r : Match) : R :=
  logistic ((rating_of rt (home r) - rating_of rt (away r)) + HFA).

Definition outcome (r : Match) : R :=
  if Req_dec_T (hs r) (as_ r) then 1 / 2
  else if Rgt_dec (hs r) (as_ r) then 1
  else 0.

Definition k_eff_of (K : R) (r : Match) : R :=
  let margin := Rabs (hs r - as_ r) in
  K * (1 + ln (1 + margin)).

(** One pass of the [for _,r in df.iterrows()] loop. *)
Definition elo_step (K HFA : R) (st : EloState) (r : Match) : EloState :=
  let rh := rating_of (ratings st) (home r) in
  let ra := rating_of (ratings st) (away r) in
  let p_home := p_home_of HFA (ratings st) r in
  let y := outcome r in
  let k_eff := k_eff_of K r in
  {| ratings :=
       <[away r := ra - k_eff * (y - p_home)]>
         (<[home r := rh + k_eff * (y - p_home)]> (ratings st));
     ll := ll st - (y * ln (Rmax p_home eps)
                    + (1 - y) * ln (Rmax (1 - p_home) eps));
     n := S (n st) |}.

Definition elo_replay (K HFA : R) (df : list Match) : EloState :=
  fold_left (elo_step K HFA) df elo_init.

(** [run_elo(df, K, HFA)] returns [ratings, ll/max(n,1)]. *)
Definition run_elo (df : list Match) (K HFA : R) : gmap string R * R :=
  let st := elo_replay K HFA df in
  (ratings st, ll st / INR (Nat.max (n st) 1)).

(** * Hyperparameter tuner *)

Record Params : Type := mkParams { pK : R; pHFA : R }.

Definition K_grid : list Z := [15; 25; 35]%Z.
Definition HFA_grid : list Z := [40; 60; 80]%Z.

(** The candidates in the order the two nested loops visit them. *)
Definition grid : list (Z * Z) :=
  flat_map (fun K => map (fun HFA => (K, HFA)) HFA_grid) K_grid.

Definition params_of (c : Z * Z) : Params :=
  {| pK := IZR (fst c); pHFA := IZR (snd c) |}.

Definition loss_of (df : list Match) (c : Z * Z) : R :=
  snd (run_elo df (IZR (fst c)) (IZR (snd c))).

(** The loop state of [tune_elo]: [best] and [params]. *)
Record TuneState : Type := mkTuneState {
  best : option R;
  params : Params
}.

(** One pass of the inner loop body:
    [if best is None or loss<best: best=loss; params={"K":K,"HFA":HFA}]. *)
Definition tune_step (df : list Match) (st : TuneState) (c : Z * Z) : TuneState :=
  let loss := loss_of df c in
  match best st with
  | None => {| best := Some loss; params := params_of c |}
  | Some b =>
      if Rlt_dec loss b then {| best := Some loss; params := params_of c |}
      else st
  end.

Definition tune_init : TuneState :=
  {| best := None; params := {| pK := 30; pHFA := 60 |} |}.

Definition tune_elo (df : list Match) : Params :=
  params (fold_left (tune_step df) grid tune_init).

(** The training branch of [main]: flat ratings and [HFA=60] on an empty
    history, otherwise the tuned replay.  Only ["HFA"] of [params] is read
    afterwards. *)
Definition train (hist : list Match) : gmap string R * R :=
  match hist with
  | [] => (∅, 60)
  | _ :: _ =>
      let params := tune_elo hist in
      (fst (run_elo hist (pK params) (pHFA params)), pHFA params)
  end.

(** * Edge and stake calculator, pick aggregator *)

(** [round(x, ndigits)]: nearest multiple of [10^-ndigits], halves to even. *)
Definition round_half_even (y : R) : Z :=
  let f := Zfloor y in
  let d := y - IZR f in
  if Rlt_dec d (1 / 2) then f
  else if Rlt_dec (1 / 2) d then (f + 1)%Z
  else if Z.even f then f else (f + 1)%Z.

Definition pyround (x : R) (ndigits : nat) : R :=
  IZR (round_half_even (x * 10 ^ ndigits)) / 10 ^ ndigits.

(** [ko.strftime("%Y-%m-%d %H:%M")], for the four-digit years of the feed. *)
Definition digit (k : nat) : ascii := ascii_of_nat (48 + k mod 10).

Definition pad2 (k : nat) : string :=
  String (digit (k / 10)) (String (digit k) EmptyString).

Definition pad4 (k : nat) : string :=
  String (digit (k / 1000)) (String (digit (k / 100)) (pad2 k)).

Definition strftime_minute (t : DateTime) : string :=
  (pad4 (year t) ++ "-" ++ pad2 (month t) ++ "-" ++ pad2 (day t)
   ++ " " ++ pad2 (hour t) ++ ":" ++ pad2 (minute t))%string.

(** Truthiness of [ev.get("home_team")]: [None] and [""] are falsy. *)
Definition truthy_name (o : option string) : option string :=
  match o with
  | Some s => if String.eqb s "" then None else Some s
  | None => None
  end.

(** [d={o.get("name"):o.get("price") for o in m.get("outcomes",[])}]
    restricted to its string keys, the only ones a team name can hit. *)
Definition outcome_dict (os : list Outcome) : gmap string pyval :=
  fold_left
    (fun d o => match o_name o with
                | Some nm => <[nm := o_price o]> d
                | None => d
                end)
    os ∅.

(** [d.get(team)] *)
Definition dict_get (d : gmap string pyval) (team : string) : pyval :=
  default PyNone (d !! team).

(** The running best prices of one contest and the books quoting them. *)
Record Best : Type := mkBest {
  best_home : option pyval;
  book_h : option string;
  best_away : option pyval;
  book_a : option string
}.

Definition best_init : Best :=
  {| best_home := None; book_h := None; best_away := None; book_a := None |}.

(** [isinstance(p,(int,float)) and (best is None or p>best)] *)
Definition improves (p : pyval) (cur : option pyval) : bool :=
  is_number p &&
  match cur with
  | None => true
  | Some b => if Rgt_dec (num p) (num b) then true else false
  end.

Definition scan_market (h a : string) (bkey : option string)
    (acc : Best) (m : Market) : Best :=
  match m_key m with
  | Some "h2h"%string =>
      let d := outcome_dict (outcomes m) in
      let ph := dict_get d h in
      let pa := dict_get d a in
      let acc :=
        if improves ph (best_home acc)
        then {| best_home := Some ph; book_h := bkey;
                best_away := best_away acc; book_a := book_a acc |}
        else acc in
      if improves pa (best_away acc)
      then {| best_home := best_home acc; book_h := book_h acc;
              best_away := Some pa; book_a := bkey |}
      else acc
  | _ => acc
  end.

Definition scan_bookmaker (h a : string) (acc : Best) (bk : Bookmaker) : Best :=
  fold_left (scan_market h a (bk_key bk)) (markets bk) acc.

Definition best_prices (h a : string) (bks : list Bookmaker) : Best :=
  fold_left (scan_bookmaker h a) bks best_init.

(** The side picked for a priced contest, with what the row needs of it. *)
Record Choice : Type := mkChoice {
  c_side : string;
  c_p : R;
  c_price : pyval;
  c_mp : R;
  c_edge : R;
  c_book : option string;
  c_sel : string
}.

Section Config.
(** The four settings read from the environment. *)
Variables (BANKROLL KELLY_FACTOR EDGE_MIN MAX_KELLY : R).

Definition kelly_fraction (p odds k : R) : R :=
  if Rle_dec odds 1 then 0
  else
    let b := odds - 1 in
    let f := (p * (b + 1) - 1) / b in
    let f := Rmax 0 (k * f) in
    Rmin f MAX_KELLY.

(** The trained model the aggregation loop reads. *)
Variables (ratings : gmap string R) (HFA : R).

(** [p_home] and [p_away] of a contest. *)
Definition model_probs (h a : string) : R * R :=
  let rh := rating_of ratings h in
  let ra := rating_of ratings a in
  let p_home := logistic ((rh - ra) + HFA) in
  let p_away := 1 - p_home in
  (p_home, p_away).

(** [edge_home,edge_away=p_home-m_home, p_away-m_away] *)
Definition edges (h a : string) (m_home m_away : R) : R * R :=
  let '(p_home, p_away) := model_probs h a in
  (p_home - m_home, p_away - m_away).

(** The side kept: home when [edge_home>=edge_away], away otherwise. *)
Definition choose_side (h a : string) (b : Best) (m_home m_away : R)
    (ph pa : pyval) : Choice :=
  let '(p_home, p_away) := model_probs h a in
  let '(edge_home, edge_away) := edges h a m_home m_away in
  if Rge_dec edge_home edge_away
  then {| c_side := "HOME"; c_p := p_home; c_price := ph; c_mp := m_home;
          c_edge := edge_home; c_book := book_h b; c_sel := h |}
  else {| c_side := "AWAY"; c_p := p_away; c_price := pa; c_mp := m_away;
          c_edge := edge_away; c_book := book_a b; c_sel := a |}.

Definition make_row (ko : DateTime) (h a : string) (c : Choice) : Row :=
  let price := num (c_price c) in
  let p := c_p c in
  let stake_frac := kelly_fraction p price KELLY_FACTOR in
  let stake_amt := pyround (BANKROLL * stake_frac) 2 in
  {| kickoff := strftime_minute ko;
     match_label := (h ++ " vs " ++ a)%string;
     pick_label := (c_side c ++ " — " ++ c_sel c)%string;
     book := c_book c;
     best_odds := c_price c;
     market_p := pyround (c_mp c) 4;
     model_p := pyround p 4;
     edge := pyround (c_edge c) 4;
     kelly_pct := pyround (stake_frac * 100) 2;
     stake := stake_amt;
     profit := pyround (stake_amt * (price - 1)) 2;
     payout := pyround (stake_amt * price) 2;
     ev_profit := pyround (stake_amt * (p * (price - 1) - (1 - p))) 2 |}.

(** The body of [for ev in events]: [None] is a [continue]. *)
Definition pick_event (ev : Event) : option Row :=
  match truthy_name (home_team ev), truthy_name (away_team ev) with
  | Some h, Some a =>
      let ko := commence_time ev in
      let b := best_prices h a (bookmakers ev) in
      match best_home b, best_away b with
      | Some ph, Some pa =>
          match devig_two_way ph pa with
          | Some (m_home, m_away) =>
              let c := choose_side h a b m_home m_away ph pa in
              if Rlt_dec (c_edge c) EDGE_MIN then None
              else Some (make_row ko h a c)
          | None => None
          end
      | _, _ => None
      end
  | _, _ => None
  end.

(** [rows] when the loop is over. *)
Definition collect_rows (events : list Event) : list Row :=
  omap pick_event events.
End Config.

(** ** The final ordering

    [pd.DataFrame(rows).sort_values(["Kickoff (AEST)","Edge"],
    ascending=[True,False])]: a stable sort on the kickoff label, ascending,
    then on the recorded edge, descending.  A frame built from an empty
    list has no columns, and sorting it by a column name raises [KeyError]
    ([None] here). *)

Definition row_leb (r1 r2 : Row) : bool :=
  match String.compare (kickoff r1) (kickoff r2) with
  | Lt => true
  | Gt => false
  | Eq => if Rle_dec (edge r2) (edge r1) then true else false
  end.

Fixpoint insert_row (r : Row) (l : list Row) : list Row :=
  match l with
  | [] => [r]
  | x :: l' => if row_leb r x then r :: x :: l' else x :: insert_row r l'
  end.

Definition stable_sort (rows : list Row) : list Row :=
  fold_right insert_row [] rows.

Definition sort_values (rows : list Row) : option (list Row) :=
  match rows with
  | [] => None
  | _ :: _ => Some (stable_sort rows)
  end.

(** Everything [main] computes from the two feeds. *)
Definition main_picks (BANKROLL KELLY_FACTOR EDGE_MIN MAX_KELLY : R)
    (hist : list Match) (events : list Event) : option (list Row) :=
  let '(ratings, HFA) := train hist in
  sort_values
    (collect_rows BANKROLL KELLY_FACTOR EDGE_MIN MAX_KELLY ratings HFA events).

(** * The score feed: [fetch_scores_fallback]

    What the function does with the replies of the scores endpoint.  A reply
    is taken as decoded: a field whose reading would raise is [None]. *)

(** One entry of ["scores"]: [s["name"]] ([None] when the key is absent,
    [Some None] for a null) and [float(s["score"])] ([None] when the key is
    absent or the value does not convert). *)
Record ScoreEntry : Type := mkScoreEntry {
  s_name : option (option string);
  s_score : option R
}.

Record Game : Type := mkGame {
  g_completed : bool;                   (* truthiness of g.get("completed") *)
  g_home : option string;               (* g.get("home_team") *)
  g_away : option string;               (* g.get("away_team") *)
  g_scores : option (list ScoreEntry);  (* g.get("scores",[]); None: not iterable *)
  g_commence : option Z                 (* the parsed g["commence_time"], an instant *)
}.

Inductive Response : Type :=
  | RequestRaised
  | Reply (status_code : Z) (body : option (list Game)).

(** A row of the history frame with its ["date"]. *)
Definition ScoreRow : Type := Z * Match.

(** [pm={s["name"]:float(s["score"]) for s in g.get("scores",[])}]
    restricted to its string keys; [None] when an entry raises. *)
Definition score_dict (ss : list ScoreEntry) : option (gmap string R) :=
  fold_left
    (fun acc s =>
       match acc, s_name s, s_score s with
       | Some d, Some nm, Some v =>
           Some (match nm with Some k => <[k := v]> d | None => d end)
       | _, _, _ => None
       end)
    ss (Some ∅).

(** One pass of [for g in r.json()]: [None] raises, [Some None] is a
    [continue], [Some (Some row)] appends. *)
Definition game_row (g : Game) : option (option ScoreRow) :=
  if negb (g_completed g) then Some None
  else
    match truthy_name (g_home g), truthy_name (g_away g) with
    | Some h, Some a =>
        match g_scores g with
        | None => None
        | Some ss =>
            match score_dict ss with
            | None => None
            | Some pm =>
                match pm !! h, pm !! a with
                | Some x, Some y =>
                    match g_commence g with
                    | None => None
                    | Some t => Some (Some (t, mkMatch h a x y))
                    end
                | _, _ => Some None
                end
            end
        end
    | _, _ => Some None
    end.

(** [rows] after the loop over one reply, [None] when a pass raised. *)
Fixpoint window_rows (gs : list Game) : option (list ScoreRow) :=
  match gs with
  | [] => Some []
  | g :: gs' =>
      match game_row g with
      | None => None
      | Some r =>
          match window_rows gs' with
          | None => None
          | Some rs => Some (match r with Some x => x :: rs | None => rs end)
          end
      end
  end.

(** The body of the [try] for one window. *)
Definition response_rows (r : Response) : option (list ScoreRow) :=
  match r with
  | RequestRaised => None
  | Reply code body =>
      if (code =? 200)%Z
      then match body with Some gs => window_rows gs | None => None end
      else None
  end.

Definition windows : list Z := [365; 180; 120; 90; 60; 30; 14; 7; 3]%Z.

Fixpoint first_rows (api : Z -> Response) (ds : list Z) : list ScoreRow :=
  match ds with
  | [] => []
  | d :: ds' =>
      match response_rows (api d) with
      | Some (r :: rs) => r :: rs
      | _ => first_rows api ds'
      end
  end.

(** The rows [fetch_scores_fallback] hands to [sort_values("date")], for
    the replies [api] gives to each [daysFrom]. *)
Definition fetch_scores_rows (api : Z -> Response) : list ScoreRow :=
  first_rows api windows.

(** * Predicates used in the statements *)

(** [c] is the first candidate of [cs] with the least loss. *)
Definition first_min (f : Z * Z -> R) (cs : list (Z * Z)) (c : Z * Z) : Prop :=
  exists pre post : list (Z * Z),
    cs = pre ++ c :: post
    /\ (forall c', In c' cs -> f c <= f c')
    /\ (forall c', In c' pre -> f c < f c').

(** The comparison [stable_sort] uses, as a relation. *)
Definition row_le (r1 r2 : Row) : Prop := row_leb r1 r2 = true.

(** The order of the report: an earlier kickoff label first, and under one
    label the larger recorded edge first. *)
Definition kickoff_then_edge (r1 r2 : Row) : Prop :=
  String.compare (kickoff r1) (kickoff r2) = Lt
  \/ (kickoff r1 = kickoff r2 /\ edge r1 >= edge r2).

(** The fields of a kickoff are those of a calendar time with a four-digit
    year. *)
Definition wf_time (t : DateTime) : Prop :=
  (1000 <= year t < 100 * 100 /\ month t < 100 /\ day t < 100
   /\ hour t < 100 /\ minute t < 100)%nat.

(** [t1] falls in an earlier minute than [t2]. *)
Definition minute_lt (t1 t2 : DateTime) : Prop :=
  (year t1 < year t2
   \/ (year t1 = year t2
       /\ (month t1 < month t2
           \/ (month t1 = month t2
               /\ (day t1 < day t2
                   \/ (day t1 = day t2
                       /\ (hour t1 < hour t2
                           \/ (hour t1 = hour t2
                               /\ minute t1 < minute t2))))))))%nat.

(** [t1] is an earlier time than [t2], seconds included. *)
Definition time_lt (t1 t2 : DateTime) : Prop :=
  minute_lt t1 t2
  \/ (year t1 = year t2 /\ month t1 = month t2 /\ day t1 = day t2
      /\ hour t1 = hour t2 /\ minute t1 = minute t2
      /\ second t1 < second t2)%nat.

(** Two rows that [sort_values] does not tell apart. *)
Definition row_eqv (r x : Row) : bool := row_leb r x && row_leb x r.

(** The competitors a history names. *)
Definition teams_of (df : list Match) : gset string :=
  list_to_set (flat_map (fun r => [home r; away r]) df).

(** The sum of all ratings in a map. *)
Definition rating_total (m : gmap string R) : R :=
  map_fold (fun _ v acc => v + acc) 0 m.

(** The quotes the scan of a contest reads, in scan order: book, home price,
    away price of every ["h2h"] market. *)
Definition market_quote (h a : string) (bkey : option string) (m : Market)
    : list (option string * pyval * pyval) :=
  match m_key m with
  | Some "h2h"%string =>
      let d := outcome_dict (outcomes m) in [(bkey, dict_get d h, dict_get d a)]
  | _ => []
  end.

Definition quotes (h a : string) (bks : list Bookmaker)
    : list (option string * pyval * pyval) :=
  flat_map (fun bk => flat_map (market_quote h a (bk_key bk)) (markets bk)) bks.

(** [p], quoted by [bk], is the first largest number of a list of quotes. *)
Definition first_best (l : list (option string * pyval)) (p : pyval)
    (bk : option string) : Prop :=
  is_number p = true
  /\ (forall q, In q l -> is_number (snd q) = true -> num (snd q) <= num p)
  /\ exists pre post,
       l = pre ++ (bk, p) :: post
       /\ (forall q, In q pre -> is_number (snd q) = true -> num (snd q) < num p).

(** The home and the away column of a list of quotes, each with its book. *)
Definition home_quotes (qs : list (option string * pyval * pyval))
    : list (option string * pyval) :=
  map (fun q => (fst (fst q), snd (fst q))) qs.

Definition away_quotes (qs : list (option string * pyval * pyval))
    : list (option string * pyval) :=
  map (fun q => (fst (fst q), snd q)) qs.

(** What a running best price [cur] from book [bk] is to the quotes [l]
    scanned so far: nothing while no quote is a number, the first largest
    number otherwise. *)
Definition side_inv (l : list (option string * pyval)) (cur : option pyval)
    (bk : option string) : Prop :=
  match cur with
  | None => forall q, In q l -> is_number (snd q) = false
  | Some p => first_best l p bk
  end.

(** The outcome is listed under the name [t]. *)
Definition named (t : string) (o : Outcome) : bool :=
  match o_name o with
  | Some nm => String.eqb nm t
  | None => false
  end.

(** * Sample inputs *)

Definition quote (bk h a : string) (ph pa : R) : Bookmaker :=
  mkBookmaker (Some bk)
    [mkMarket (Some "h2h"%string)
       [mkOutcome (Some h) (PyFloat ph); mkOutcome (Some a) (PyFloat pa)]].

(** Two contests kicking off thirty seconds apart, and one an hour earlier. *)
Definition contest_AB : Event :=
  mkEvent (Some "A"%string) (Some "B"%string) (mkDateTime 2024 3 7 19 0 0)
    [quote "x" "A" "B" (5 / 2) (5 / 3)].

Definition contest_CD : Event :=
  mkEvent (Some "C"%string) (Some "D"%string) (mkDateTime 2024 3 7 19 0 30)
    [quote "y" "C" "D" 5 (5 / 4)].

Definition contest_EF : Event :=
  mkEvent (Some "E"%string) (Some "F"%string) (mkDateTime 2024 3 7 18 0 0)
    [quote "y" "E" "F" 5 (5 / 4)].

(** The row of a contest taken on the home side at the default settings and
    the flat model ([ratings = {}], [HFA = 60]). *)
Definition home_row (ev : Event) (h a bk : string) (ph pa : R) : Row :=
  make_row 1000 (1 / 2) (2 / 100) (commence_time ev) h a
    {| c_side := "HOME";
       c_p := fst (model_probs ∅ 60 h a);
       c_price := PyFloat ph;
       c_mp := 1 / ph / (1 / ph + 1 / pa);
       c_edge := fst (edges ∅ 60 h a (1 / ph / (1 / ph + 1 / pa))
                        (1 / pa / (1 / ph + 1 / pa)));
       c_book := Some bk;
       c_sel := h |}.

Definition row_AB : Row := home_row contest_AB "A" "B" "x" (5 / 2) (5 / 3).
Definition row_CD : Row := home_row contest_CD "C" "D" "y" 5 (5 / 4).
Definition row_EF : Row := home_row contest_EF "E" "F" "y" 5 (5 / 4).

(** * The probability utilities as binary64 computes them

    [logistic] and [devig_two_way] above read every operation exactly.
    Python evaluates them on binary64 numbers: each operation returns the
    representable number nearest to its exact result. *)

(** ** Rounded arithmetic

    What is used of round-to-nearest: it is monotone, a rounded number is
    representable (rounding it again changes nothing), and 0, 1/2, 1 and 2
    are representable. *)

Record rounding (rnd : R -> R) : Prop := mkRounding {
  rnd_mono : forall x y : R, x <= y -> rnd x <= rnd y;
  rnd_idem : forall x : R, rnd (rnd x) = rnd x;
  rnd_0 : rnd 0 = 0;
  rnd_half : rnd (1 / 2) = 1 / 2;
  rnd_1 : rnd 1 = 1;
  rnd_2 : rnd 2 = 2
}.

(** The three ways a call of [devig_two_way] ends. *)
Inductive devig_result : Type :=
  | DevigNone                          (* return None, None *)
  | DevigZeroDivision                  (* pa/s raises: s == 0.0 *)
  | DevigPair (pa pb : R).             (* return pa/s, pb/s *)

(** Lines 25-28 with each operation rounded.  [1/a] is one operation on an
    [int] as on a [float]; the comparisons are exact. *)
Definition devig_two_way_rnd (rnd : R -> R) (a b : pyval) : devig_result :=
  if negb (is_number a && is_number b) then DevigNone
  else if Rle_dec (num a) 1 then DevigNone
  else if Rle_dec (num b) 1 then DevigNone
  else
    let pa := rnd (1 / num a) in
    let pb := rnd (1 / num b) in
    let s := rnd (pa + pb) in
    if Req_dec_T s 0 then DevigZeroDivision
    else DevigPair (rnd (pa / s)) (rnd (pb / s)).

(** The library's [10.0 ** y]: [None] when the power overflows, where Python
    raises [OverflowError].  What is used of it: a power is not negative, and
    [10.0 ** 0.0] is [1.0]. *)
Record power10 (pow10 : R -> option R) : Prop := mkPower10 {
  pow10_nonneg : forall y p : R, pow10 y = Some p -> 0 <= p;
  pow10_0 : pow10 0 = Some 1
}.

Definition pow10_monotone (pow10 : R -> option R) : Prop :=
  forall y y' p p' : R,
    y <= y' -> pow10 y = Some p -> pow10 y' = Some p' -> p <= p'.

(** Line 23 with each operation rounded; [None] is the [OverflowError] of
    the power.  Negation is exact. *)
Definition logistic_rnd (rnd : R -> R) (pow10 : R -> option R) (x : R) : option R :=
  match pow10 (rnd (- x / 400)) with
  | None => None
  | Some p => Some (rnd (1 / rnd (1 + p)))
  end.

(** A rounding that can be computed with: to four decimals, and the power
    rounded the same way. *)
Definition round4 (x : R) : R := pyround x 4.

Definition pow10_round4 (y : R) : option R := Some (round4 (Rpower 10 y)).

(** ** Binary64 itself

    Lines 25-28 on two [float] arguments, with the kernel's binary64
    operations. *)
Definition devig_two_way_f64 (a b : float) : option (float * float) :=
  if ((a <=? 1) || (b <=? 1))%float then None
  else
    let pa := (1 / a)%float in
    let pb := (1 / b)%float in
    let s := (pa + pb)%float in
    Some ((pa / s)%float, (pb / s)%float).

(** Line 23 on a [float] argument; [pow10] stands for the library call
    [10.0 ** y]. *)
Definition logistic_f64 (pow10 : float -> float) (x : float) : float :=
  (1 / (1 + pow10 ((- x) / 400)))%float.

(** The values of [10.0 ** y] at the three exponents met below: [1.0] at
    [0.0], [1e-16] at [-16.0] and [1e-17] at [-17.0], the last two written as
    the binary64 numbers these decimals denote. *)
Definition pow10_sample (y : float) : float :=
  if (y =? 0)%float then 1%float
  else if (y =? -16)%float then 0x1.cd2b297d889bcp-54%float
  else if (y =? -17)%float then 0x1.70ef54646d497p-57%float
  else nan.

(** * Properties *)

(** ** Logistic transform *)

Lemma Rpower10_pos (y : R) : 0 < Rpower 10 y.
Proof. unfold Rpower. apply exp_pos. Qed.

Lemma Rpower10_decreasing_arg (x y : R) :
  x < y -> Rpower 10 (- y / 400) < Rpower 10 (- x / 400).
Proof.
  intros Hxy. apply Rpower_lt; lra.
Qed.

Lemma logistic_bounds (x : R) : 0 < logistic x < 1.
Proof.
  unfold logistic. pose proof (Rpower10_pos (- x / 400)) as Hp.
  split.
  - apply Rdiv_lt_0_compat; lra.
  - apply (Rmult_lt_reg_r (1 + Rpower 10 (- x / 400))); [lra|].
    unfold Rdiv. rewrite Rmult_assoc, Rinv_l by lra. lra.
Qed.

Lemma logistic_0 : logistic 0 = 1 / 2.
Proof.
  unfold logistic. replace (- 0 / 400) with 0 by lra.
  rewrite Rpower_O by lra. lra.
Qed.

Lemma logistic_increasing (x y : R) : x < y -> logistic x < logistic y.
Proof.
  intros Hxy. unfold logistic.
  pose proof (Rpower10_pos (- x / 400)) as Hx.
  pose proof (Rpower10_pos (- y / 400)) as Hy.
  pose proof (Rpower10_decreasing_arg x y Hxy) as Hlt.
  unfold Rdiv. rewrite !Rmult_1_l.
  apply Rinv_lt_contravar; [apply Rmult_lt_0_compat; lra | lra].
Qed.

(** ** De-vigorization *)

Lemma devig_two_way_None_iff (a b : pyval) :
  devig_two_way a b = None <-> invalid_price a \/ invalid_price b.
Proof.
  unfold devig_two_way, invalid_price.
  destruct (is_number a) eqn:Ha, (is_number b) eqn:Hb; simpl;
    try (split; [intros _; auto | reflexivity]).
  destruct (Rle_dec (num a) 1) as [La|La].
  { split; [intros _; left; right; auto | reflexivity]. }
  destruct (Rle_dec (num b) 1) as [Lb|Lb].
  { split; [intros _; right; right; auto | reflexivity]. }
  split; [discriminate|].
  intros [[H|[_ H]]|[H|[_ H]]]; try discriminate; contradiction.
Qed.

Lemma devig_two_way_valid (a b : pyval) :
  is_number a = true -> is_number b = true -> 1 < num a -> 1 < num b ->
  devig_two_way a b =
    Some (1 / num a / (1 / num a + 1 / num b), 1 / num b / (1 / num a + 1 / num b)).
Proof.
  intros Ha Hb La Lb. unfold devig_two_way. rewrite Ha, Hb. simpl.
  destruct (Rle_dec (num a) 1); [lra|].
  destruct (Rle_dec (num b) 1); [lra|]. reflexivity.
Qed.

Lemma normalized_pair (x y : R) :
  1 < x -> 1 < y ->
  let pa := 1 / x in
  let pb := 1 / y in
  pa / (pa + pb) + pb / (pa + pb) = 1
  /\ 0 < pa / (pa + pb) < 1 /\ 0 < pb / (pa + pb) < 1.
Proof.
  intros Hx Hy pa pb.
  assert (Hpa : 0 < pa) by (unfold pa; apply Rdiv_lt_0_compat; lra).
  assert (Hpb : 0 < pb) by (unfold pb; apply Rdiv_lt_0_compat; lra).
  assert (Hs : 0 < pa + pb) by lra.
  assert (Hsum : pa / (pa + pb) + pb / (pa + pb) = 1) by (field; lra).
  assert (Ha : 0 < pa / (pa + pb)) by (apply Rdiv_lt_0_compat; lra).
  assert (Hb : 0 < pb / (pa + pb)) by (apply Rdiv_lt_0_compat; lra).
  repeat split; lra.
Qed.

Lemma devig_two_way_sum (a b : pyval) (ma mb : R) :
  devig_two_way a b = Some (ma, mb) -> ma + mb = 1.
Proof.
  unfold devig_two_way.
  destruct (negb (is_number a && is_number b)); [discriminate|].
  destruct (Rle_dec (num a) 1) as [|La]; [discriminate|].
  destruct (Rle_dec (num b) 1) as [|Lb]; [discriminate|].
  intros [= <- <-].
  apply (normalized_pair (num a) (num b)); lra.
Qed.

Lemma sample_devig (ph pa : R) :
  1 < ph -> 1 < pa ->
  devig_two_way (PyFloat ph) (PyFloat pa) =
    Some (1 / ph / (1 / ph + 1 / pa), 1 / pa / (1 / ph + 1 / pa)).
Proof.
  intros Hh Ha. apply (devig_two_way_valid (PyFloat ph) (PyFloat pa)); auto.
Qed.

(** The quotes 2.10 and 1.90 are worth 0.475 and 0.525 once the margin is
    taken out. *)
Example devig_two_way_210_190 :
  devig_two_way (PyFloat (21 / 10)) (PyFloat (19 / 10)) = Some (19 / 40, 21 / 40).
Proof.
  rewrite sample_devig by lra. f_equal. f_equal; field.
Qed.

Example devig_two_way_not_a_number :
  devig_two_way PyNone (PyFloat 2) = None
  /\ devig_two_way (PyFloat 2) (PyStr "2.0") = None
  /\ devig_two_way (PyBool true) (PyFloat 2) = None.
Proof.
  repeat split; try reflexivity.
  apply devig_two_way_None_iff. left. right. simpl. split; [reflexivity | lra].
Qed.

(** ** Kelly stake *)


Lemma kelly_fraction_priced (cap p odds k : R) :
  1 < odds ->
  kelly_fraction cap p odds k =
    Rmin (Rmax 0 (k * ((p * ((odds - 1) + 1) - 1) / (odds - 1)))) cap.
Proof.
  intros H. unfold kelly_fraction. destruct (Rle_dec odds 1); [lra|reflexivity].
Qed.

Lemma kelly_fraction_range (cap p odds k : R) :
  0 <= cap -> 0 <= kelly_fraction cap p odds k <= cap.
Proof.
  intros Hcap. unfold kelly_fraction.
  destruct (Rle_dec odds 1); [lra|].
  split.
  - apply Rmin_glb; [apply Rmax_l | assumption].
  - apply Rmin_r.
Qed.




(** Half-Kelly at even money with a 60% chance is 10% of the bankroll,
    which the default cap cuts to 2%. *)
Example kelly_fraction_capped :
  kelly_fraction (2 / 100) (6 / 10) 2 (1 / 2) = 2 / 100.
Proof.
  rewrite kelly_fraction_priced by lra.
  replace (1 / 2 * ((6 / 10 * (2 - 1 + 1) - 1) / (2 - 1))) with (1 / 10) by field.
  rewrite Rmax_right by lra. rewrite Rmin_right by lra. reflexivity.
Qed.

(** ** Rating engine *)

Lemma elo_replay_snoc (K HFA : R) (pre : list Match) (r : Match) :
  elo_replay K HFA (pre ++ [r]) = elo_step K HFA (elo_replay K HFA pre) r.
Proof. unfold elo_replay. rewrite fold_left_app. reflexivity. Qed.

Lemma elo_replay_split (K HFA : R) (pre post : list Match) (r : Match) :
  elo_replay K HFA (pre ++ r :: post) =
    fold_left (elo_step K HFA) post (elo_replay K HFA (pre ++ [r])).
Proof.
  unfold elo_replay. rewrite !fold_left_app. reflexivity.
Qed.

(** The label the loop assigns agrees with the three-way reading of the score. *)
Lemma outcome_cases (r : Match) :
  (hs r > as_ r -> outcome r = 1)
  /\ (as_ r > hs r -> outcome r = 0)
  /\ (hs r = as_ r -> outcome r = 1 / 2).
Proof.
  unfold outcome.
  destruct (Req_dec_T (hs r) (as_ r)) as [E|E];
    [|destruct (Rgt_dec (hs r) (as_ r)) as [G|G]];
    repeat split; intros; first [reflexivity | lra].
Qed.

(** C1. Every match of a replay is processed by the same step: the home win
    probability is [logistic((rh - ra) + HFA)] with absent competitors read
    as 1500, the outcome label is 1 for a home win, 0 for an away win and
    one half for a tie, the update rate is [K * (1 + ln (1 + |hs - as|))],
    and the ratings, the loss sum and the count are written from these. *)
Theorem run_elo_update_step (K HFA : R) (pre post : list Match) (r : Match) :
  let st := elo_replay K HFA pre in
  let st' := elo_replay K HFA (pre ++ [r]) in
  let rh := default 1500 (ratings st !! home r) in
  let ra := default 1500 (ratings st !! away r) in
  let p_home := logistic ((rh - ra) + HFA) in
  let k_eff := K * (1 + ln (1 + Rabs (hs r - as_ r))) in
  exists y : R,
    (hs r > as_ r -> y = 1)
    /\ (as_ r > hs r -> y = 0)
    /\ (hs r = as_ r -> y = 1 / 2)
    /\ ratings st' =
         <[away r := ra - k_eff * (y - p_home)]>
           (<[home r := rh + k_eff * (y - p_home)]> (ratings st))
    /\ ll st' = ll st - (y * ln (Rmax p_home eps)
                         + (1 - y) * ln (Rmax (1 - p_home) eps))
    /\ n st' = S (n st)
    /\ run_elo (pre ++ r :: post) K HFA =
         (let fin := fold_left (elo_step K HFA) post st' in
          (ratings fin, ll fin / INR (Nat.max (n fin) 1))).
Proof.
  intros st st' rh ra p_home k_eff.
  exists (outcome r).
  destruct (outcome_cases r) as (Hw & Hl & Ht).
  repeat split; try assumption.
  - unfold st'. rewrite elo_replay_snoc. reflexivity.
  - unfold st'. rewrite elo_replay_snoc. reflexivity.
  - unfold st'. rewrite elo_replay_snoc. reflexivity.
  - unfold run_elo. rewrite elo_replay_split. reflexivity.
Qed.

Lemma run_elo_update_step_witness :
  exists y : R,
    y = 1
    /\ ratings (elo_replay 30 60 [mkMatch "A" "B" 20 10]) =
         <["B" := 1500 - 30 * (1 + ln (1 + Rabs (20 - 10)))
                         * (y - logistic ((1500 - 1500) + 60))]>
           (<["A" := 1500 + 30 * (1 + ln (1 + Rabs (20 - 10)))
                            * (y - logistic ((1500 - 1500) + 60))]> ∅).
Proof.
  destruct (run_elo_update_step 30 60 [] [] (mkMatch "A" "B" 20 10))
    as (y & Hw & _ & _ & Hr & _).
  exists y. split.
  - apply Hw. simpl. lra.
  - exact Hr.
Defined.

Lemma rating_of_insert_eq (rt : gmap string R) (t : string) (v : R) :
  rating_of (<[t := v]> rt) t = v.
Proof. unfold rating_of. rewrite lookup_insert_eq. reflexivity. Qed.

Lemma rating_of_insert_ne (rt : gmap string R) (t u : string) (v : R) :
  t <> u -> rating_of (<[t := v]> rt) u = rating_of rt u.
Proof. intros H. unfold rating_of. rewrite lookup_insert_ne by exact H. reflexivity. Qed.

(** C2. When a match has two distinct competitors, the step
    raises the home rating by [k_eff * (outcome - p_home)] and lowers the
    away rating by the same amount, so the two ratings have the same sum
    after the step as before it; no other rating changes. *)
Theorem run_elo_zero_sum (K HFA : R) (pre : list Match) (r : Match) :
  home r <> away r ->
  let st := elo_replay K HFA pre in
  let st' := elo_replay K HFA (pre ++ [r]) in
  let delta := k_eff_of K r * (outcome r - p_home_of HFA (ratings st) r) in
  rating_of (ratings st') (home r) = rating_of (ratings st) (home r) + delta
  /\ rating_of (ratings st') (away r) = rating_of (ratings st) (away r) - delta
  /\ rating_of (ratings st') (home r) + rating_of (ratings st') (away r)
     = rating_of (ratings st) (home r) + rating_of (ratings st) (away r)
  /\ (forall t : string, t <> home r -> t <> away r ->
        rating_of (ratings st') t = rating_of (ratings st) t).
Proof.
  intros Hne st st' delta.
  assert (Hh : rating_of (ratings st') (home r)
               = rating_of (ratings st) (home r) + delta).
  { unfold st'. rewrite elo_replay_snoc. simpl.
    rewrite rating_of_insert_ne by congruence.
    rewrite rating_of_insert_eq. reflexivity. }
  assert (Ha : rating_of (ratings st') (away r)
               = rating_of (ratings st) (away r) - delta).
  { unfold st'. rewrite elo_replay_snoc. simpl.
    rewrite rating_of_insert_eq. reflexivity. }
  split; [exact Hh|]. split; [exact Ha|]. split; [lra|].
  intros t Hth Hta. unfold st'. rewrite elo_replay_snoc. simpl.
  rewrite !rating_of_insert_ne by congruence. reflexivity.
Qed.

Lemma run_elo_zero_sum_witness :
  rating_of (ratings (elo_replay 30 60 [mkMatch "A" "B" 20 10])) "A"
  + rating_of (ratings (elo_replay 30 60 [mkMatch "A" "B" 20 10])) "B"
  = 1500 + 1500.
Proof.
  pose proof (run_elo_zero_sum 30 60 [] (mkMatch "A" "B" 20 10)) as H.
  simpl in H. destruct H as (_ & _ & Hsum & _); [discriminate|].
  exact Hsum.
Defined.

Lemma ln2_pos : 0 < ln 2.
Proof. rewrite <- ln_1. apply ln_increasing; lra. Qed.

(** A side that meets itself: the second write replaces the first, and the
    one rating involved goes down although the home side won. *)
Lemma run_elo_self_match_not_zero_sum :
  let r := mkMatch "A" "A" 1 0 in
  let st' := elo_replay 30 60 [r] in
  rating_of (ratings st') (home r) + rating_of (ratings st') (away r)
  < rating_of ∅ (home r) + rating_of ∅ (away r).
Proof.
  cbv zeta. unfold elo_replay. simpl.
  rewrite rating_of_insert_eq.
  unfold rating_of. rewrite lookup_empty. simpl.
  unfold k_eff_of, outcome, p_home_of. simpl.
  destruct (Req_dec_T 1 0) as [E|_]; [lra|].
  destruct (Rgt_dec 1 0) as [_|G]; [|lra].
  unfold rating_of. rewrite lookup_empty. simpl.
  pose proof (logistic_bounds (1500 - 1500 + 60)) as Hp.
  replace (Rabs (1 - 0)) with 1 by (rewrite Rabs_right; lra).
  replace (1 + 1) with 2 by lra.
  pose proof ln2_pos as Hl.
  assert (0 < 30 * (1 + ln 2) * (1 - logistic (1500 - 1500 + 60))).
  { apply Rmult_lt_0_compat; lra. }
  lra.
Qed.

(** C5. Replaying no match returns the empty rating map and a loss of 0, and
    on an empty history [main] keeps the empty map, in which every
    competitor reads as 1500, with the home-field advantage 60. *)
Theorem empty_history_degrades :
  (forall K HFA : R, run_elo [] K HFA = (∅, 0))
  /\ train [] = (∅, 60)
  /\ (forall t : string, rating_of (fst (train [])) t = 1500).
Proof.
  split.
  { intros K HFA. unfold run_elo, elo_replay. simpl. f_equal. lra. }
  split; [reflexivity|].
  intros t. simpl. unfold rating_of. rewrite lookup_empty. reflexivity.
Qed.

(** One home win by ten points lifts the winner above 1500 and drops the
    loser below it. *)
Example run_elo_home_win :
  let rt := fst (run_elo [mkMatch "A" "B" 20 10] 30 60) in
  rating_of rt "A" > 1500 /\ rating_of rt "B" < 1500.
Proof.
  cbv zeta. unfold run_elo, elo_replay. cbn [fold_left fst elo_step ratings home away].
  rewrite rating_of_insert_ne by discriminate.
  rewrite !rating_of_insert_eq.
  unfold k_eff_of, outcome, p_home_of. cbn [hs as_ home away elo_init ratings].
  destruct (Req_dec_T 20 10) as [E|_]; [lra|].
  destruct (Rgt_dec 20 10) as [_|G]; [|lra].
  unfold rating_of. rewrite !lookup_empty. cbn [default].
  pose proof (logistic_bounds (1500 - 1500 + 60)) as Hp.
  assert (Hl : 0 < ln (1 + Rabs (20 - 10))).
  { rewrite <- ln_1. apply ln_increasing; [lra|].
    rewrite Rabs_right; lra. }
  assert (0 < 30 * (1 + ln (1 + Rabs (20 - 10)))
              * (1 - logistic (1500 - 1500 + 60))).
  { apply Rmult_lt_0_compat; lra. }
  split; lra.
Qed.

(** ** Hyperparameter tuner *)

Lemma first_min_single (f : Z * Z -> R) (c : Z * Z) : first_min f [c] c.
Proof.
  exists [], []. split; [reflexivity|]. split.
  - intros c' [<-|[]]. lra.
  - intros c' [].
Qed.

Lemma first_min_keep (f : Z * Z -> R) (cs : list (Z * Z)) (c x : Z * Z) :
  first_min f cs c -> f c <= f x -> first_min f (cs ++ [x]) c.
Proof.
  intros (pre & post & Hcs & Hall & Hpre) Hle.
  exists pre, (post ++ [x]). split.
  { rewrite Hcs, <- app_assoc. reflexivity. }
  split; [|exact Hpre].
  intros c' Hin. apply in_app_or in Hin as [Hin|[<-|[]]]; auto.
Qed.

Lemma first_min_replace (f : Z * Z -> R) (cs : list (Z * Z)) (c x : Z * Z) :
  first_min f cs c -> f x < f c -> first_min f (cs ++ [x]) x.
Proof.
  intros (pre & post & Hcs & Hall & Hpre) Hlt.
  exists cs, []. split; [reflexivity|].
  split.
  - intros c' Hin. apply in_app_or in Hin as [Hin|[<-|[]]]; [|lra].
    specialize (Hall c' Hin). lra.
  - intros c' Hin. specialize (Hall c' Hin). lra.
Qed.

(** The loop invariant of [tune_elo] once a first candidate has been seen. *)
Lemma tune_fold_invariant (df : list Match) (rest seen : list (Z * Z))
    (st : TuneState) (c : Z * Z) :
  best st = Some (loss_of df c) ->
  params st = params_of c ->
  first_min (loss_of df) seen c ->
  exists c' : Z * Z,
    params (fold_left (tune_step df) rest st) = params_of c'
    /\ first_min (loss_of df) (seen ++ rest) c'.
Proof.
  revert seen st c.
  induction rest as [|x rest IH]; intros seen st c Hb Hp Hmin.
  - exists c. rewrite app_nil_r. auto.
  - simpl. replace (seen ++ x :: rest) with ((seen ++ [x]) ++ rest)
      by (rewrite <- app_assoc; reflexivity).
    unfold tune_step at 2. rewrite Hb.
    destruct (Rlt_dec (loss_of df x) (loss_of df c)) as [Hlt|Hge].
    + apply (IH (seen ++ [x]) _ x); [reflexivity | reflexivity |].
      eapply first_min_replace; eassumption.
    + apply (IH (seen ++ [x]) st c); [assumption | assumption |].
      apply first_min_keep; [assumption | lra].
Qed.

(** C6. [tune_elo] visits the nine pairs of K in 15, 25, 35 and HFA in
    40, 60, 80 in that order, scores each by the mean log-loss of a full
    replay, replaces the incumbent only on a strictly smaller loss, and
    returns the first pair whose loss is least: no pair has a smaller loss
    and every earlier pair has a strictly larger one. *)
Theorem tune_elo_first_minimum (df : list Match) :
  grid = [(15, 40); (15, 60); (15, 80);
          (25, 40); (25, 60); (25, 80);
          (35, 40); (35, 60); (35, 80)]%Z
  /\ (forall c : Z * Z, loss_of df c = snd (run_elo df (IZR (fst c)) (IZR (snd c))))
  /\ (forall (st : TuneState) (c : Z * Z) (b : R),
        best st = Some b ->
        (loss_of df c < b ->
         tune_step df st c = {| best := Some (loss_of df c); params := params_of c |})
        /\ (b <= loss_of df c -> tune_step df st c = st))
  /\ exists (c : Z * Z) (pre post : list (Z * Z)),
       grid = pre ++ c :: post
       /\ tune_elo df = {| pK := IZR (fst c); pHFA := IZR (snd c) |}
       /\ (forall c', In c' grid -> loss_of df c <= loss_of df c')
       /\ (forall c', In c' pre -> loss_of df c < loss_of df c').
Proof.
  split; [reflexivity|]. split; [reflexivity|].
  split.
  { intros st c b Hb. unfold tune_step. rewrite Hb.
    destruct (Rlt_dec (loss_of df c) b); split; intros; first [reflexivity | lra]. }
  unfold tune_elo.
  change grid with ((15, 40)%Z :: tl grid).
  cbn [fold_left]. unfold tune_step at 2. cbn [best tune_init].
  destruct (tune_fold_invariant df (tl grid) [(15, 40)%Z]
              {| best := Some (loss_of df (15, 40)%Z);
                 params := params_of (15, 40)%Z |} (15, 40)%Z)
    as (c & Hp & pre & post & Hg & Hall & Hpre);
    [reflexivity | reflexivity | apply first_min_single |].
  exists c, pre, post. repeat split; assumption.
Qed.

Lemma tune_elo_first_minimum_witness :
  exists (c : Z * Z) (pre post : list (Z * Z)),
    grid = pre ++ c :: post
    /\ tune_elo [] = {| pK := IZR (fst c); pHFA := IZR (snd c) |}
    /\ loss_of [] c <= loss_of [] (35, 80)%Z.
Proof.
  destruct (tune_elo_first_minimum []) as (_ & _ & _ & c & pre & post & Hg & Ht & Hall & _).
  exists c, pre, post. split; [exact Hg|]. split; [exact Ht|].
  apply Hall. unfold grid. simpl. tauto.
Defined.

(** On an empty history every candidate scores 0 and the first one stays. *)
Example tune_elo_all_tied : tune_elo [] = {| pK := 15; pHFA := 40 |}.
Proof.
  assert (Hloss : forall c, loss_of [] c = 0).
  { intros c. unfold loss_of, run_elo, elo_replay. simpl. lra. }
  unfold tune_elo, grid. simpl.
  unfold tune_step. simpl. rewrite !Hloss.
  repeat (destruct (Rlt_dec 0 0) as [H|_]; [lra|]; simpl; rewrite ?Hloss).
  reflexivity.
Qed.

(** ** Pick aggregator: edges, side and threshold *)

Lemma edges_eq (rt : gmap string R) (HFA : R) (h a : string) (m_home m_away : R) :
  edges rt HFA h a m_home m_away =
    (logistic ((rating_of rt h - rating_of rt a) + HFA) - m_home,
     (1 - logistic ((rating_of rt h - rating_of rt a) + HFA)) - m_away).
Proof. reflexivity. Qed.




Lemma choose_side_home (rt : gmap string R) (HFA : R) (h a : string) (b : Best)
    (m_home m_away : R) (ph pa : pyval) :
  fst (edges rt HFA h a m_home m_away) >= snd (edges rt HFA h a m_home m_away) ->
  choose_side rt HFA h a b m_home m_away ph pa =
    {| c_side := "HOME"; c_p := fst (model_probs rt HFA h a); c_price := ph;
       c_mp := m_home; c_edge := fst (edges rt HFA h a m_home m_away);
       c_book := book_h b; c_sel := h |}.
Proof.
  intros H. unfold choose_side. rewrite edges_eq in *. simpl in *.
  destruct (Rge_dec _ _); [reflexivity | contradiction].
Qed.

Lemma choose_side_away (rt : gmap string R) (HFA : R) (h a : string) (b : Best)
    (m_home m_away : R) (ph pa : pyval) :
  fst (edges rt HFA h a m_home m_away) < snd (edges rt HFA h a m_home m_away) ->
  choose_side rt HFA h a b m_home m_away ph pa =
    {| c_side := "AWAY"; c_p := snd (model_probs rt HFA h a); c_price := pa;
       c_mp := m_away; c_edge := snd (edges rt HFA h a m_home m_away);
       c_book := book_a b; c_sel := a |}.
Proof.
  intros H. unfold choose_side. rewrite edges_eq in *. simpl in *.
  destruct (Rge_dec _ _); [lra | reflexivity].
Qed.


Lemma pick_event_priced (BANKROLL KELLY_FACTOR EDGE_MIN MAX_KELLY : R)
    (rt : gmap string R) (HFA : R) (ev : Event) (h a : string)
    (ph pa : pyval) (m_home m_away : R) :
  truthy_name (home_team ev) = Some h ->
  truthy_name (away_team ev) = Some a ->
  best_home (best_prices h a (bookmakers ev)) = Some ph ->
  best_away (best_prices h a (bookmakers ev)) = Some pa ->
  devig_two_way ph pa = Some (m_home, m_away) ->
  pick_event BANKROLL KELLY_FACTOR EDGE_MIN MAX_KELLY rt HFA ev =
    let c := choose_side rt HFA h a (best_prices h a (bookmakers ev))
               m_home m_away ph pa in
    if Rlt_dec (c_edge c) EDGE_MIN then None
    else Some (make_row BANKROLL KELLY_FACTOR MAX_KELLY (commence_time ev) h a c).
Proof.
  intros Hh Ha Hph Hpa Hd. unfold pick_event.
  rewrite Hh, Ha, Hph, Hpa, Hd. reflexivity.
Qed.

(** The flat model gives the home side more than an even chance. *)
Lemma flat_model_home (h a : string) :
  1 / 2 < fst (model_probs ∅ 60 h a) < 1.
Proof.
  unfold model_probs, rating_of. rewrite !lookup_empty. simpl.
  pose proof (logistic_increasing 0 (1500 - 1500 + 60)) as Hinc.
  rewrite logistic_0 in Hinc.
  pose proof (logistic_bounds (1500 - 1500 + 60)). lra.
Qed.



(** ** The order of the report *)

Lemma string_compare_refl (s : string) : String.compare s s = Eq.
Proof. apply (proj2 (OrderedTypeEx.String_as_OT.cmp_eq s s)). reflexivity. Qed.

Lemma string_compare_lt_trans (s1 s2 s3 : string) :
  String.compare s1 s2 = Lt -> String.compare s2 s3 = Lt ->
  String.compare s1 s3 = Lt.
Proof.
  intros H12 H23.
  apply OrderedTypeEx.String_as_OT.cmp_lt.
  apply OrderedTypeEx.String_as_OT.lt_trans with s2;
    apply OrderedTypeEx.String_as_OT.cmp_lt; assumption.
Qed.

Lemma string_compare_gt (s1 s2 : string) :
  String.compare s1 s2 = Lt -> String.compare s2 s1 = Gt.
Proof. intros H. rewrite String.compare_antisym, H. reflexivity. Qed.

Lemma row_leb_refl (r : Row) : row_leb r r = true.
Proof.
  unfold row_leb. rewrite string_compare_refl.
  destruct (Rle_dec (edge r) (edge r)); [reflexivity | lra].
Qed.

Lemma row_leb_total (a b : Row) : row_leb a b = true \/ row_leb b a = true.
Proof.
  unfold row_leb. rewrite (String.compare_antisym (kickoff b) (kickoff a)).
  destruct (String.compare (kickoff a) (kickoff b)); simpl; auto.
  destruct (Rle_dec (edge b) (edge a)), (Rle_dec (edge a) (edge b)); auto.
  exfalso; lra.
Qed.

Lemma row_leb_trans (a b c : Row) :
  row_leb a b = true -> row_leb b c = true -> row_leb a c = true.
Proof.
  unfold row_leb.
  destruct (String.compare (kickoff a) (kickoff b)) eqn:Hab; [| |discriminate];
    (destruct (String.compare (kickoff b) (kickoff c)) eqn:Hbc; [| |discriminate]).
  - apply String.compare_eq_iff in Hab, Hbc. rewrite Hab, Hbc, string_compare_refl.
    destruct (Rle_dec (edge b) (edge a)); [|discriminate].
    destruct (Rle_dec (edge c) (edge b)); [|discriminate].
    destruct (Rle_dec (edge c) (edge a)); [reflexivity | lra].
  - apply String.compare_eq_iff in Hab. rewrite Hab, Hbc. reflexivity.
  - apply String.compare_eq_iff in Hbc. rewrite <- Hbc, Hab. reflexivity.
  - rewrite (string_compare_lt_trans _ _ _ Hab Hbc). reflexivity.
Qed.

Lemma row_leb_false_of_earlier (r1 r2 : Row) :
  String.compare (kickoff r1) (kickoff r2) = Lt -> row_leb r2 r1 = false.
Proof.
  intros H. unfold row_leb. rewrite (string_compare_gt _ _ H). reflexivity.
Qed.

Lemma row_leb_false_of_larger_edge (r1 r2 : Row) :
  kickoff r1 = kickoff r2 -> edge r1 > edge r2 -> row_leb r2 r1 = false.
Proof.
  intros Hk He. unfold row_leb. rewrite Hk, string_compare_refl.
  destruct (Rle_dec (edge r1) (edge r2)); [lra | reflexivity].
Qed.

Lemma row_le_kickoff_then_edge (r1 r2 : Row) :
  row_le r1 r2 <-> kickoff_then_edge r1 r2.
Proof.
  unfold row_le, row_leb, kickoff_then_edge.
  destruct (String.compare (kickoff r1) (kickoff r2)) eqn:Hc.
  - apply String.compare_eq_iff in Hc.
    destruct (Rle_dec (edge r2) (edge r1)) as [Hle|Hn].
    + split; [intros _; right; split; [exact Hc | lra] | reflexivity].
    + split; [discriminate | intros [H|[_ H]]; [discriminate | lra]].
  - split; [auto | reflexivity].
  - split; [discriminate|]. intros [H|[H _]]; [discriminate|].
    rewrite H, string_compare_refl in Hc. discriminate.
Qed.

Lemma insert_row_perm (r : Row) (l : list Row) :
  Permutation (r :: l) (insert_row r l).
Proof.
  induction l as [|x l IH]; simpl; [apply Permutation_refl|].
  destruct (row_leb r x); [apply Permutation_refl|].
  eapply perm_trans; [apply perm_swap|]. apply perm_skip, IH.
Qed.

Lemma insert_row_sorted (r : Row) (l : list Row) :
  StronglySorted row_le l -> StronglySorted row_le (insert_row r l).
Proof.
  induction l as [|x l IH]; intros Hs; simpl.
  - constructor; constructor.
  - inversion Hs as [|? ? Hl Hx]; subst.
    destruct (row_leb r x) eqn:Hrx.
    + constructor; [exact Hs|]. constructor; [exact Hrx|].
      eapply List.Forall_impl; [|exact Hx]. intros y Hy.
      unfold row_le in *. eapply row_leb_trans; eassumption.
    + constructor; [apply IH, Hl|].
      eapply Permutation_Forall; [apply insert_row_perm|].
      constructor; [|exact Hx].
      destruct (row_leb_total r x) as [H|H]; [congruence | exact H].
Qed.

Lemma stable_sort_perm (rows : list Row) : Permutation rows (stable_sort rows).
Proof.
  induction rows as [|r rows IH]; simpl; [constructor|].
  eapply perm_trans; [apply perm_skip, IH | apply insert_row_perm].
Qed.

Lemma stable_sort_sorted (rows : list Row) : StronglySorted row_le (stable_sort rows).
Proof.
  induction rows as [|r rows IH]; simpl; [constructor|].
  apply insert_row_sorted, IH.
Qed.

Lemma row_eqv_not_both (r x y : Row) :
  row_leb x y = false -> row_eqv r x = true -> row_eqv r y = true -> False.
Proof.
  unfold row_eqv. intros Hxy Hx Hy.
  apply andb_prop in Hx as [_ Hxr]. apply andb_prop in Hy as [Hry _].
  rewrite (row_leb_trans _ _ _ Hxr Hry) in Hxy. discriminate.
Qed.

Lemma insert_row_stable (r x : Row) (l : list Row) :
  List.filter (row_eqv r) (insert_row x l) = List.filter (row_eqv r) (x :: l).
Proof.
  induction l as [|y l IH]; [reflexivity|].
  cbn [insert_row]. destruct (row_leb x y) eqn:Hxy; [reflexivity|].
  cbn [List.filter] in *. rewrite IH.
  destruct (row_eqv r x) eqn:Hx, (row_eqv r y) eqn:Hy; try reflexivity.
  exfalso. eapply row_eqv_not_both; eassumption.
Qed.

Lemma stable_sort_stable (r : Row) (rows : list Row) :
  List.filter (row_eqv r) (stable_sort rows) = List.filter (row_eqv r) rows.
Proof.
  induction rows as [|x rows IH]; [reflexivity|].
  cbn [stable_sort fold_right]. fold (stable_sort rows).
  rewrite insert_row_stable. cbn [List.filter]. rewrite IH. reflexivity.
Qed.

Lemma strongly_sorted_after (out l1 l2 : list Row) (r : Row) :
  StronglySorted row_le out -> out = l1 ++ r :: l2 -> Forall (row_le r) l2.
Proof.
  intros Hs ->. induction l1 as [|x l1 IH]; simpl in Hs.
  - inversion Hs; assumption.
  - inversion Hs; auto.
Qed.

Lemma strongly_sorted_impl (P Q : Row -> Row -> Prop) (l : list Row) :
  (forall a b, P a b -> Q a b) -> StronglySorted P l -> StronglySorted Q l.
Proof.
  intros HPQ Hs. induction Hs as [|x l Hs IH Hx]; constructor; [exact IH|].
  eapply List.Forall_impl; [|exact Hx]. intros y. apply HPQ.
Qed.

Lemma sorted_places_before (out l1 l2 : list Row) (r1 r2 : Row) :
  StronglySorted row_le out -> out = l1 ++ r2 :: l2 -> In r1 out ->
  row_leb r2 r1 = false -> In r1 l1 /\ ~ In r1 l2.
Proof.
  intros Hs Hout Hin Hf.
  pose proof (strongly_sorted_after _ _ _ _ Hs Hout) as Hafter.
  assert (Hn2 : ~ In r1 l2).
  { intros Hin2. rewrite List.Forall_forall in Hafter.
    specialize (Hafter r1 Hin2). unfold row_le in Hafter. congruence. }
  split; [|exact Hn2].
  subst out. apply in_app_or in Hin as [H|[H|H]]; [exact H | | contradiction].
  subst r1. rewrite row_leb_refl in Hf. discriminate.
Qed.

(** ** Kickoff labels: the order of the strings is the order of the minutes *)

Lemma append_cons (c : ascii) (s t : string) :
  (String c s ++ t)%string = String c (s ++ t)%string.
Proof. reflexivity. Qed.

Lemma append_nil (t : string) : ("" ++ t)%string = t.
Proof. reflexivity. Qed.

Lemma compare_same_head (c : ascii) (t1 t2 : string) :
  String.compare (String c t1) (String c t2) = String.compare t1 t2.
Proof.
  cbn [String.compare]. unfold Ascii.compare. rewrite N.compare_refl. reflexivity.
Qed.

Lemma digit_compare (x y : nat) :
  Ascii.compare (digit x) (digit y) = Nat.compare (x mod 10) (y mod 10).
Proof.
  unfold digit, Ascii.compare.
  assert (Hcode : forall k, (k < 10)%nat ->
            N_of_ascii (ascii_of_nat (48 + k)) = N.of_nat (48 + k)).
  { intros k Hk. unfold ascii_of_nat. apply N_ascii_embedding. lia. }
  rewrite !Hcode by (apply Nat.mod_upper_bound; lia).
  rewrite <- Nat2N.inj_compare.
  destruct (Nat.compare_spec (x mod 10) (y mod 10)) as [E|L|G].
  - rewrite E. apply Nat.compare_refl.
  - apply Nat.compare_lt_iff. lia.
  - apply Nat.compare_gt_iff. lia.
Qed.

Lemma compare_digit_cons (x y : nat) (t1 t2 : string) :
  String.compare (String (digit x) t1) (String (digit y) t2) =
    match Nat.compare (x mod 10) (y mod 10) with
    | Eq => String.compare t1 t2
    | c => c
    end.
Proof. cbn [String.compare]. rewrite digit_compare. reflexivity. Qed.

Lemma pad2_compare (a b : nat) (t1 t2 : string) :
  (a < 100)%nat -> (b < 100)%nat ->
  String.compare (pad2 a ++ t1) (pad2 b ++ t2) =
    match Nat.compare a b with
    | Eq => String.compare t1 t2
    | c => c
    end.
Proof.
  intros Ha Hb. unfold pad2. rewrite !append_cons, !append_nil.
  rewrite !compare_digit_cons.
  pose proof (Nat.div_mod_eq a 10) as Ea. pose proof (Nat.div_mod_eq b 10) as Eb.
  pose proof (Nat.mod_upper_bound a 10) as Ma.
  pose proof (Nat.mod_upper_bound b 10) as Mb.
  assert (Hqa : ((a / 10) mod 10 = a / 10)%nat).
  { apply Nat.mod_small. apply Nat.Div0.div_lt_upper_bound. lia. }
  assert (Hqb : ((b / 10) mod 10 = b / 10)%nat).
  { apply Nat.mod_small. apply Nat.Div0.div_lt_upper_bound. lia. }
  rewrite Hqa, Hqb.
  destruct (Nat.compare_spec (a / 10) (b / 10)) as [E|L|G];
    destruct (Nat.compare_spec (a mod 10) (b mod 10)) as [E'|L'|G'];
    destruct (Nat.compare_spec a b) as [E''|L''|G'']; try reflexivity; lia.
Qed.

Lemma pad4_split (a : nat) (t : string) :
  (pad4 a ++ t)%string = (pad2 (a / 100) ++ (pad2 (a mod 100) ++ t))%string.
Proof.
  unfold pad4, pad2, digit. rewrite !append_cons, !append_nil.
  replace (a / 100 / 10)%nat with (a / 1000)%nat
    by (rewrite Nat.Div0.div_div; reflexivity).
  replace ((a mod 100 / 10) mod 10)%nat with ((a / 10) mod 10)%nat.
  2:{ pose proof (Nat.div_mod_eq a 100) as E.
      pose proof (Nat.mod_upper_bound a 100) as M.
      pose proof (Nat.div_mod_eq (a mod 100) 10) as E1.
      pose proof (Nat.mod_upper_bound (a mod 100) 10) as M1.
      assert (Hd : (a / 10 = 10 * (a / 100) + a mod 100 / 10)%nat).
      { symmetry. apply (Nat.div_unique a 10 _ ((a mod 100) mod 10)); lia. }
      rewrite Hd. rewrite Nat.add_comm, Nat.mul_comm, Nat.Div0.mod_add. reflexivity. }
  replace ((a mod 100) mod 10)%nat with (a mod 10)%nat.
  2:{ pose proof (Nat.div_mod_eq a 100) as E.
      pose proof (Nat.mod_upper_bound a 100) as M.
      pose proof (Nat.div_mod_eq (a mod 100) 10) as E1.
      pose proof (Nat.mod_upper_bound (a mod 100) 10) as M1.
      symmetry. apply (Nat.mod_unique a 10 (10 * (a / 100) + a mod 100 / 10)); lia. }
  reflexivity.
Qed.

Lemma pad4_compare (a b : nat) (t1 t2 : string) :
  (a < 100 * 100)%nat -> (b < 100 * 100)%nat ->
  String.compare (pad4 a ++ t1) (pad4 b ++ t2) =
    match Nat.compare a b with
    | Eq => String.compare t1 t2
    | c => c
    end.
Proof.
  intros Ha Hb. rewrite !pad4_split.
  pose proof (Nat.div_mod_eq a 100) as Ea. pose proof (Nat.div_mod_eq b 100) as Eb.
  pose proof (Nat.mod_upper_bound a 100) as Ma.
  pose proof (Nat.mod_upper_bound b 100) as Mb.
  rewrite pad2_compare by (apply Nat.Div0.div_lt_upper_bound; lia).
  rewrite pad2_compare by lia.
  destruct (Nat.compare_spec (a / 100) (b / 100)) as [E|L|G];
    destruct (Nat.compare_spec (a mod 100) (b mod 100)) as [E'|L'|G'];
    destruct (Nat.compare_spec a b) as [E''|L''|G'']; try reflexivity; lia.
Qed.

(** The label order is the lexicographic order of year, month, day, hour
    and minute. *)
Lemma strftime_minute_compare (t1 t2 : DateTime) :
  wf_time t1 -> wf_time t2 ->
  String.compare (strftime_minute t1) (strftime_minute t2) =
    match Nat.compare (year t1) (year t2) with
    | Eq =>
      match Nat.compare (month t1) (month t2) with
      | Eq =>
        match Nat.compare (day t1) (day t2) with
        | Eq =>
          match Nat.compare (hour t1) (hour t2) with
          | Eq => Nat.compare (minute t1) (minute t2)
          | c => c
          end
        | c => c
        end
      | c => c
      end
    | c => c
    end.
Proof.
  intros ((_ & Y1) & M1 & D1 & H1 & N1) ((_ & Y2) & M2 & D2 & H2 & N2).
  unfold strftime_minute. rewrite !append_cons, !append_nil.
  rewrite pad4_compare by assumption.
  destruct (Nat.compare (year t1) (year t2)); try reflexivity.
  rewrite compare_same_head, pad2_compare by assumption.
  destruct (Nat.compare (month t1) (month t2)); try reflexivity.
  rewrite compare_same_head, pad2_compare by assumption.
  destruct (Nat.compare (day t1) (day t2)); try reflexivity.
  rewrite compare_same_head, pad2_compare by assumption.
  destruct (Nat.compare (hour t1) (hour t2)); try reflexivity.
  rewrite compare_same_head.
  change (pad2 (minute t1)) with (pad2 (minute t1) ++ "")%string.
  change (pad2 (minute t2)) with (pad2 (minute t2) ++ "")%string.
  rewrite pad2_compare by assumption.
  destruct (Nat.compare (minute t1) (minute t2)); reflexivity.
Qed.

Lemma strftime_minute_earlier (t1 t2 : DateTime) :
  wf_time t1 -> wf_time t2 -> minute_lt t1 t2 ->
  String.compare (strftime_minute t1) (strftime_minute t2) = Lt.
Proof.
  intros W1 W2 Hlt. rewrite strftime_minute_compare by assumption.
  unfold minute_lt in Hlt.
  destruct Hlt as [Hy|[Ey [Hm|[Em [Hd|[Ed [Hh|[Eh Hn]]]]]]]].
  - apply Nat.compare_lt_iff in Hy. rewrite Hy. reflexivity.
  - rewrite Ey, Nat.compare_refl.
    apply Nat.compare_lt_iff in Hm. rewrite Hm. reflexivity.
  - rewrite Ey, Em, !Nat.compare_refl.
    apply Nat.compare_lt_iff in Hd. rewrite Hd. reflexivity.
  - rewrite Ey, Em, Ed, !Nat.compare_refl.
    apply Nat.compare_lt_iff in Hh. rewrite Hh. reflexivity.
  - rewrite Ey, Em, Ed, Eh, !Nat.compare_refl.
    apply Nat.compare_lt_iff in Hn. exact Hn.
Qed.

(** ** Rounding *)

Lemma round_half_even_near (y : R) :
  - (1 / 2) <= IZR (round_half_even y) - y <= 1 / 2.
Proof.
  unfold round_half_even.
  pose proof (Zfloor_bound y) as [Hlo Hhi].
  destruct (Rlt_dec (y - IZR (Zfloor y)) (1 / 2)) as [H1|H1]; [lra|].
  destruct (Rlt_dec (1 / 2) (y - IZR (Zfloor y))) as [H2|H2].
  { rewrite plus_IZR. lra. }
  destruct (Z.even (Zfloor y)); [lra|]. rewrite plus_IZR. lra.
Qed.

Lemma pow10_pos (k : nat) : 0 < 10 ^ k.
Proof. apply pow_lt. lra. Qed.

Lemma pyround_gap (x y : R) (k : nat) :
  x + 1 / 10 ^ k < y -> pyround x k < pyround y k.
Proof.
  intros Hgap. unfold pyround.
  pose proof (pow10_pos k) as Hp.
  pose proof (round_half_even_near (x * 10 ^ k)) as Hx.
  pose proof (round_half_even_near (y * 10 ^ k)) as Hy.
  assert (Hs : x * 10 ^ k + 1 < y * 10 ^ k).
  { assert (E : (x + 1 / 10 ^ k) * 10 ^ k = x * 10 ^ k + 1) by (field; lra).
    rewrite <- E. apply Rmult_lt_compat_r; assumption. }
  assert (Hz : (round_half_even (x * 10 ^ k) < round_half_even (y * 10 ^ k))%Z).
  { apply lt_IZR. lra. }
  apply IZR_lt in Hz.
  unfold Rdiv. apply Rmult_lt_compat_r; [apply Rinv_0_lt_compat; assumption | assumption].
Qed.

(** ** The rows of a run and their order *)

Lemma pick_event_kickoff (B KF EM MK : R) (rt : gmap string R) (HFA : R)
    (ev : Event) (row : Row) :
  pick_event B KF EM MK rt HFA ev = Some row ->
  kickoff row = strftime_minute (commence_time ev).
Proof.
  unfold pick_event.
  destruct (truthy_name (home_team ev)) as [h|]; [|discriminate].
  destruct (truthy_name (away_team ev)) as [a|]; [|discriminate].
  destruct (best_home _) as [ph|]; [|discriminate].
  destruct (best_away _) as [pa|]; [|discriminate].
  destruct (devig_two_way ph pa) as [[mh ma]|]; [|discriminate].
  destruct (Rlt_dec _ EM); [discriminate|].
  intros [= <-]. reflexivity.
Qed.

Lemma collect_rows_In (B KF EM MK : R) (rt : gmap string R) (HFA : R)
    (events : list Event) (ev : Event) (row : Row) :
  In ev events -> pick_event B KF EM MK rt HFA ev = Some row ->
  In row (collect_rows B KF EM MK rt HFA events).
Proof.
  intros Hin Hp. unfold collect_rows.
  apply list_elem_of_In. apply list_elem_of_omap.
  exists ev. split; [apply list_elem_of_In; exact Hin | exact Hp].
Qed.

Lemma main_picks_eq (B KF EM MK : R) (hist : list Match) (events : list Event) :
  main_picks B KF EM MK hist events =
    sort_values (collect_rows B KF EM MK (fst (train hist)) (snd (train hist)) events).
Proof. unfold main_picks. destruct (train hist). reflexivity. Qed.

Lemma sort_values_nonempty (rows : list Row) :
  rows <> [] -> sort_values rows = Some (stable_sort rows).
Proof. destruct rows; [congruence | reflexivity]. Qed.

Lemma sort_values_Some (rows out : list Row) :
  sort_values rows = Some out -> out = stable_sort rows.
Proof. destruct rows; [discriminate | intros [= <-]; reflexivity]. Qed.

(** A sample contest is priced, taken on the home side and kept. *)
Lemma pick_event_sample (ev : Event) (h a bk : string) (ph pa : R) :
  truthy_name (home_team ev) = Some h ->
  truthy_name (away_team ev) = Some a ->
  best_prices h a (bookmakers ev) =
    {| best_home := Some (PyFloat ph); book_h := Some bk;
       best_away := Some (PyFloat pa); book_a := Some bk |} ->
  1 < ph -> 1 < pa -> 1 / ph / (1 / ph + 1 / pa) <= 2 / 5 ->
  pick_event 1000 (1 / 2) (2 / 100) (2 / 100) ∅ 60 ev = Some (home_row ev h a bk ph pa).
Proof.
  intros Hh Ha Hb Lh La Hm.
  assert (Hd : devig_two_way (PyFloat ph) (PyFloat pa) =
               Some (1 / ph / (1 / ph + 1 / pa), 1 / pa / (1 / ph + 1 / pa))).
  { apply (devig_two_way_valid (PyFloat ph) (PyFloat pa)); auto. }
  pose proof (devig_two_way_sum _ _ _ _ Hd) as Hs.
  pose proof (flat_model_home h a) as Hp.
  rewrite (pick_event_priced _ _ _ _ _ _ _ h a (PyFloat ph) (PyFloat pa) _ _ Hh Ha)
    by (first [rewrite Hb; reflexivity | exact Hd]).
  cbv zeta. rewrite choose_side_home.
  2:{ rewrite edges_eq. cbn [fst snd].
      unfold model_probs in Hp. cbn [fst] in Hp. lra. }
  cbn [c_edge]. rewrite Hb. cbn [book_h].
  destruct (Rlt_dec _ _) as [Hlt|_]; [|reflexivity].
  exfalso. rewrite edges_eq in Hlt. cbn [fst] in Hlt.
  unfold model_probs in Hp. cbn [fst] in Hp. lra.
Qed.

Lemma pick_contest_AB :
  pick_event 1000 (1 / 2) (2 / 100) (2 / 100) ∅ 60 contest_AB = Some row_AB.
Proof.
  apply pick_event_sample; try reflexivity; lra.
Qed.

Lemma pick_contest_CD :
  pick_event 1000 (1 / 2) (2 / 100) (2 / 100) ∅ 60 contest_CD = Some row_CD.
Proof.
  apply pick_event_sample; try reflexivity; lra.
Qed.

Lemma pick_contest_EF :
  pick_event 1000 (1 / 2) (2 / 100) (2 / 100) ∅ 60 contest_EF = Some row_EF.
Proof.
  apply pick_event_sample; try reflexivity; lra.
Qed.

Lemma edge_row_AB_lt_CD : edge row_AB < edge row_CD.
Proof.
  unfold row_AB, row_CD, home_row, make_row. cbn [edge c_edge].
  apply pyround_gap. rewrite !edges_eq. cbn [fst].
  unfold rating_of. rewrite !lookup_empty. cbn [default].
  replace (1 / (5 / 2) / (1 / (5 / 2) + 1 / (5 / 3))) with (2 / 5) by field.
  replace (1 / 5 / (1 / 5 + 1 / (5 / 4))) with (1 / 5) by field.
  assert (H : 1 / 10 ^ 4 <= 1 / 10).
  { unfold Rdiv. rewrite !Rmult_1_l. apply Rinv_le_contravar; [lra|].
    simpl. lra. }
  lra.
Qed.

Lemma collect_rows_AB_EF :
  collect_rows 1000 (1 / 2) (2 / 100) (2 / 100) ∅ 60 [contest_AB; contest_EF]
  = [row_AB; row_EF].
Proof.
  unfold collect_rows. cbn [omap list_omap].
  rewrite pick_contest_AB, pick_contest_EF. reflexivity.
Qed.

Lemma collect_rows_AB_CD :
  collect_rows 1000 (1 / 2) (2 / 100) (2 / 100) ∅ 60 [contest_AB; contest_CD]
  = [row_AB; row_CD].
Proof.
  unfold collect_rows. cbn [omap list_omap].
  rewrite pick_contest_AB, pick_contest_CD. reflexivity.
Qed.

Lemma stable_sort_AB_EF : stable_sort [row_AB; row_EF] = [row_EF; row_AB].
Proof.
  cbn [stable_sort fold_right insert_row].
  rewrite (row_leb_false_of_earlier row_EF row_AB); reflexivity.
Qed.

Lemma stable_sort_AB_CD : stable_sort [row_AB; row_CD] = [row_CD; row_AB].
Proof.
  cbn [stable_sort fold_right insert_row].
  rewrite (row_leb_false_of_larger_edge row_CD row_AB);
    [reflexivity | reflexivity | apply edge_row_AB_lt_CD].
Qed.

(** C9. When at least one row is emitted, the report is the
    emitted rows in a stable order, sorted by ascending kickoff label (the
    kickoff written to the minute) and under one label by descending
    recorded edge (the edge rounded to four decimals).  A row with an
    earlier label, or with the same label and a larger recorded edge, comes
    before; so of two qualifying contests that kick off in different
    minutes the earlier one comes first, whatever the edges. *)
Theorem main_picks_order (B KF EM MK : R) (hist : list Match) (events : list Event) :
  let rt := fst (train hist) in
  let HFA := snd (train hist) in
  let pick := pick_event B KF EM MK rt HFA in
  let rows := collect_rows B KF EM MK rt HFA events in
  let out := stable_sort rows in
  (rows <> [] -> main_picks B KF EM MK hist events = Some out)
  /\ (forall out', main_picks B KF EM MK hist events = Some out' -> out' = out)
  /\ Permutation rows out
  /\ StronglySorted kickoff_then_edge out
  /\ (forall r, List.filter (row_eqv r) out = List.filter (row_eqv r) rows)
  /\ (forall ev row, pick ev = Some row ->
        kickoff row = strftime_minute (commence_time ev))
  /\ (forall r1 r2 l1 l2,
        out = l1 ++ r2 :: l2 -> In r1 out ->
        String.compare (kickoff r1) (kickoff r2) = Lt
        \/ (kickoff r1 = kickoff r2 /\ edge r1 > edge r2) ->
        In r1 l1 /\ ~ In r1 l2)
  /\ (forall ev1 ev2 r1 r2 l1 l2,
        In ev1 events -> In ev2 events ->
        pick ev1 = Some r1 -> pick ev2 = Some r2 ->
        wf_time (commence_time ev1) -> wf_time (commence_time ev2) ->
        minute_lt (commence_time ev1) (commence_time ev2) ->
        out = l1 ++ r2 :: l2 ->
        In r1 l1 /\ ~ In r1 l2).
Proof.
  intros rt HFA pick rows out.
  assert (Hperm : Permutation rows out) by apply stable_sort_perm.
  assert (Hsort : StronglySorted row_le out) by apply stable_sort_sorted.
  assert (Hbefore : forall r1 r2 l1 l2,
             out = l1 ++ r2 :: l2 -> In r1 out ->
             String.compare (kickoff r1) (kickoff r2) = Lt
             \/ (kickoff r1 = kickoff r2 /\ edge r1 > edge r2) ->
             In r1 l1 /\ ~ In r1 l2).
  { intros r1 r2 l1 l2 Hout Hin Hord.
    apply (sorted_places_before out l1 l2 r1 r2 Hsort Hout Hin).
    destruct Hord as [Hlt|[Hk He]].
    - apply row_leb_false_of_earlier, Hlt.
    - apply row_leb_false_of_larger_edge; assumption. }
  split.
  { intros Hne. rewrite main_picks_eq. apply sort_values_nonempty, Hne. }
  split.
  { intros out' H. rewrite main_picks_eq in H. apply sort_values_Some, H. }
  split; [exact Hperm|].
  split.
  { eapply strongly_sorted_impl; [|exact Hsort].
    intros a b. apply row_le_kickoff_then_edge. }
  split; [intros r; apply stable_sort_stable|].
  split; [intros ev row; apply pick_event_kickoff|].
  split; [exact Hbefore|].
  intros ev1 ev2 r1 r2 l1 l2 Hin1 Hin2 Hp1 Hp2 W1 W2 Hlt Hout.
  apply (Hbefore r1 r2 l1 l2 Hout).
  - eapply Permutation_in; [exact Hperm|].
    exact (collect_rows_In _ _ _ _ _ _ events ev1 r1 Hin1 Hp1).
  - left.
    rewrite (pick_event_kickoff _ _ _ _ _ _ _ _ Hp1).
    rewrite (pick_event_kickoff _ _ _ _ _ _ _ _ Hp2).
    apply strftime_minute_earlier; assumption.
Qed.

(** Of two sample contests the one listed second kicks off an hour earlier,
    and its row comes first. *)
Lemma main_picks_order_witness :
  main_picks 1000 (1 / 2) (2 / 100) (2 / 100) [] [contest_AB; contest_EF]
  = Some [row_EF; row_AB]
  /\ In row_EF [row_EF] /\ ~ In row_EF [].
Proof.
  destruct (main_picks_order 1000 (1 / 2) (2 / 100) (2 / 100) []
              [contest_AB; contest_EF])
    as (Hrun & _ & _ & _ & _ & _ & _ & Hev).
  cbn [train fst snd] in Hrun, Hev.
  rewrite collect_rows_AB_EF, stable_sort_AB_EF in Hrun, Hev.
  split; [apply Hrun; discriminate|].
  apply (Hev contest_EF contest_AB row_EF row_AB [row_EF] []).
  - right; left; reflexivity.
  - left; reflexivity.
  - exact pick_contest_EF.
  - exact pick_contest_AB.
  - unfold wf_time; cbn; lia.
  - unfold wf_time; cbn; lia.
  - unfold minute_lt; cbn; lia.
  - reflexivity.
Defined.

(** Two qualifying contests thirty seconds apart share the label
    "2024-03-07 19:00"; the later one has the larger edge and comes first. *)
Lemma kickoff_within_minute_reordered :
  time_lt (commence_time contest_AB) (commence_time contest_CD)
  /\ pick_event 1000 (1 / 2) (2 / 100) (2 / 100) ∅ 60 contest_AB = Some row_AB
  /\ pick_event 1000 (1 / 2) (2 / 100) (2 / 100) ∅ 60 contest_CD = Some row_CD
  /\ kickoff row_AB = "2024-03-07 19:00"%string
  /\ kickoff row_CD = "2024-03-07 19:00"%string
  /\ edge row_AB < edge row_CD
  /\ main_picks 1000 (1 / 2) (2 / 100) (2 / 100) [] [contest_AB; contest_CD]
     = Some [row_CD; row_AB].
Proof.
  split.
  { unfold time_lt. right. cbn. lia. }
  split; [exact pick_contest_AB|]. split; [exact pick_contest_CD|].
  split; [reflexivity|]. split; [reflexivity|].
  split; [exact edge_row_AB_lt_CD|].
  rewrite main_picks_eq. cbn [train fst snd].
  rewrite collect_rows_AB_CD.
  rewrite sort_values_nonempty by discriminate.
  rewrite stable_sort_AB_CD. reflexivity.
Qed.

(** With nothing collected there is no frame to sort. *)
Example main_picks_no_rows :
  main_picks 1000 (1 / 2) (2 / 100) (2 / 100) [] [] = None.
Proof. reflexivity. Qed.

(** * Further properties of the code *)

(** ** Logistic transform and de-vigorization *)

Lemma Rpower10_opp (y : R) : Rpower 10 (- y) = / Rpower 10 y.
Proof. apply Rpower_Ropp. Qed.

Lemma logistic_alt (x : R) :
  logistic x = Rpower 10 (x / 400) / (1 + Rpower 10 (x / 400)).
Proof.
  unfold logistic. replace (- x / 400) with (- (x / 400)) by lra.
  rewrite Rpower10_opp. pose proof (Rpower10_pos (x / 400)) as Hp.
  field. lra.
Qed.

(** [logistic] of the opposite differential is the complementary
    probability, so when two sides swap grounds and the home advantage
    changes sign they swap their model probabilities. *)
Theorem logistic_complement (rt : gmap string R) (HFA : R) (h a : string) (x : R) :
  logistic (- x) = 1 - logistic x
  /\ model_probs rt HFA a h
     = (snd (model_probs rt (- HFA) h a), fst (model_probs rt (- HFA) h a)).
Proof.
  assert (Hc : forall z, logistic (- z) = 1 - logistic z).
  { intros z. rewrite (logistic_alt z). unfold logistic.
    replace (- - z / 400) with (z / 400) by lra.
    pose proof (Rpower10_pos (z / 400)) as Hp. field. lra. }
  split; [apply Hc|].
  unfold model_probs. cbn [fst snd].
  replace (rating_of rt a - rating_of rt h + HFA)
    with (- (rating_of rt h - rating_of rt a + - HFA)) by lra.
  rewrite Hc. f_equal. lra.
Qed.

(** The odds [p/(1-p)] the transform gives are [10^(x/400)]: 400 rating
    points multiply the odds by ten. *)
Theorem logistic_odds (x : R) :
  logistic x / (1 - logistic x) = Rpower 10 (x / 400)
  /\ logistic (x + 400) / (1 - logistic (x + 400))
     = 10 * (logistic x / (1 - logistic x)).
Proof.
  assert (Ho : forall z, logistic z / (1 - logistic z) = Rpower 10 (z / 400)).
  { intros z. rewrite (logistic_alt z).
    pose proof (Rpower10_pos (z / 400)) as Hp. field. lra. }
  split; [apply Ho|]. rewrite !Ho.
  replace ((x + 400) / 400) with (1 + x / 400) by lra.
  rewrite Rpower_plus, Rpower_1 by lra. reflexivity.
Qed.

(** For two usable prices the fair probabilities are [b/(a+b)] and
    [a/(a+b)]: the shorter price gets the larger probability, and a fair
    probability is below the raw one [1/a] exactly when the book has an
    overround ([1/a + 1/b > 1]). *)
Theorem devig_two_way_closed_form (a b : pyval) :
  is_number a = true -> is_number b = true -> 1 < num a -> 1 < num b ->
  exists ma mb : R,
    devig_two_way a b = Some (ma, mb)
    /\ ma = num b / (num a + num b)
    /\ mb = num a / (num a + num b)
    /\ (num a < num b <-> mb < ma)
    /\ (ma < 1 / num a <-> 1 < 1 / num a + 1 / num b).
Proof.
  intros Ha Hb La Lb.
  exists (1 / num a / (1 / num a + 1 / num b)),
         (1 / num b / (1 / num a + 1 / num b)).
  split; [apply devig_two_way_valid; assumption|].
  assert (Ea : 1 / num a / (1 / num a + 1 / num b) = num b / (num a + num b))
    by (field; lra).
  assert (Eb : 1 / num b / (1 / num a + 1 / num b) = num a / (num a + num b))
    by (field; lra).
  split; [exact Ea|]. split; [exact Eb|].
  rewrite Ea, Eb.
  assert (Hs : 0 < num a + num b) by lra.
  split.
  - split; intros H.
    + apply Rmult_lt_compat_r; [apply Rinv_0_lt_compat; lra | exact H].
    + apply (Rmult_lt_reg_r (/ (num a + num b)));
        [apply Rinv_0_lt_compat; lra | exact H].
  - assert (E1 : 1 / num a - num b / (num a + num b)
                 = (num a + num b - num a * num b) / (num a * (num a + num b)))
      by (field; lra).
    assert (E2 : 1 / num a + 1 / num b - 1
                 = (num a + num b - num a * num b) / (num a * num b))
      by (field; lra).
    assert (P1 : 0 < num a * (num a + num b)) by (apply Rmult_lt_0_compat; lra).
    assert (P2 : 0 < num a * num b) by (apply Rmult_lt_0_compat; lra).
    split; intros H.
    + assert (H1 : 0 < (num a + num b - num a * num b) / (num a * (num a + num b)))
        by (rewrite <- E1; lra).
      assert (N : 0 < num a + num b - num a * num b).
      { apply (Rmult_lt_reg_r (/ (num a * (num a + num b))));
          [apply Rinv_0_lt_compat; exact P1 | rewrite Rmult_0_l; exact H1]. }
      assert (H2 : 0 < (num a + num b - num a * num b) / (num a * num b))
        by (apply Rdiv_lt_0_compat; assumption).
      rewrite <- E2 in H2. lra.
    + assert (H1 : 0 < (num a + num b - num a * num b) / (num a * num b))
        by (rewrite <- E2; lra).
      assert (N : 0 < num a + num b - num a * num b).
      { apply (Rmult_lt_reg_r (/ (num a * num b)));
          [apply Rinv_0_lt_compat; exact P2 | rewrite Rmult_0_l; exact H1]. }
      assert (H2 : 0 < (num a + num b - num a * num b) / (num a * (num a + num b)))
        by (apply Rdiv_lt_0_compat; assumption).
      rewrite <- E1 in H2. lra.
Qed.

Lemma devig_two_way_closed_form_witness :
  exists ma mb : R,
    devig_two_way (PyFloat (21 / 10)) (PyFloat (19 / 10)) = Some (ma, mb)
    /\ ma = 19 / 10 / (21 / 10 + 19 / 10)
    /\ ma < mb.
Proof.
  destruct (devig_two_way_closed_form (PyFloat (21 / 10)) (PyFloat (19 / 10)))
    as (ma & mb & Hd & Ea & Eb & _ & _);
    [reflexivity | reflexivity | simpl; lra | simpl; lra |].
  exists ma, mb. split; [exact Hd|]. split; [exact Ea|].
  rewrite Ea, Eb. simpl. lra.
Defined.

(** Swapping the two prices swaps the two answers, the null answer
    included. *)
Theorem devig_two_way_swap (a b : pyval) :
  devig_two_way b a =
    match devig_two_way a b with
    | Some (ma, mb) => Some (mb, ma)
    | None => None
    end.
Proof.
  unfold devig_two_way.
  destruct (is_number a), (is_number b); simpl; try reflexivity;
    destruct (Rle_dec (num a) 1), (Rle_dec (num b) 1); try reflexivity.
  rewrite (Rplus_comm (1 / num b) (1 / num a)). reflexivity.
Qed.

(** ** Kelly stake: sign and monotonicity *)




(** With a multiplier that is not negative the stake never goes down when
    the win probability goes up. *)
Theorem kelly_fraction_monotone (cap p1 p2 odds k : R) :
  0 <= k -> p1 <= p2 ->
  kelly_fraction cap p1 odds k <= kelly_fraction cap p2 odds k.
Proof.
  intros Hk Hp. unfold kelly_fraction.
  destruct (Rle_dec odds 1) as [|Hodds]; [lra|].
  apply Rle_min_compat_r, Rle_max_compat_l, Rmult_le_compat_l; [exact Hk|].
  unfold Rdiv. apply Rmult_le_compat_r.
  - left. apply Rinv_0_lt_compat. lra.
  - assert (0 <= odds - 1 + 1) by lra.
    assert (p1 * (odds - 1 + 1) <= p2 * (odds - 1 + 1))
      by (apply Rmult_le_compat_r; assumption).
    lra.
Qed.

Lemma kelly_fraction_monotone_witness :
  kelly_fraction (2 / 100) (51 / 100) 2 (1 / 2)
  <= kelly_fraction (2 / 100) (6 / 10) 2 (1 / 2).
Proof.
  apply (kelly_fraction_monotone (2 / 100) (51 / 100) (6 / 10) 2 (1 / 2)); lra.
Defined.

(** ** Rating engine: count, loss bounds, rated teams, conservation *)

Lemma eps_bounds : 0 < eps < 1.
Proof.
  unfold eps. pose proof (pow10_pos 9) as Hp.
  assert (H1 : 1 < 10 ^ 9) by (simpl; lra).
  split; [apply Rdiv_lt_0_compat; lra|].
  apply (Rmult_lt_reg_r (10 ^ 9)); [exact Hp|].
  unfold Rdiv. rewrite Rmult_assoc, Rinv_l by lra. lra.
Qed.

Lemma ln_eps : ln eps = - (9 * ln 10).
Proof.
  unfold eps, Rdiv. rewrite Rmult_1_l, ln_Rinv by apply pow10_pos.
  rewrite ln_pow by lra. simpl INR. f_equal. f_equal. lra.
Qed.

Lemma ln_nondecreasing (x y : R) : 0 < x -> x <= y -> ln x <= ln y.
Proof.
  intros Hx Hxy. destruct Hxy as [Hlt|Heq].
  - left. apply ln_increasing; assumption.
  - right. rewrite Heq. reflexivity.
Qed.

(** The logarithm the loss takes: between [ln eps] and 0. *)
Lemma ln_floored (p : R) : p < 1 -> ln eps <= ln (Rmax p eps) <= 0.
Proof.
  intros Hp. pose proof eps_bounds as [He0 He1]. split.
  - apply ln_nondecreasing; [exact He0 | apply Rmax_r].
  - rewrite <- ln_1. apply ln_nondecreasing.
    + apply Rlt_le_trans with eps; [exact He0 | apply Rmax_r].
    + apply Rmax_lub; lra.
Qed.

Lemma outcome_values (r : Match) :
  outcome r = 0 \/ outcome r = 1 / 2 \/ outcome r = 1.
Proof.
  unfold outcome. destruct (Req_dec_T _ _); [auto|].
  destruct (Rgt_dec _ _); auto.
Qed.

Lemma elo_replay_invariant (K HFA : R) (df : list Match) :
  n (elo_replay K HFA df) = length df
  /\ 0 <= ll (elo_replay K HFA df) <= INR (length df) * (9 * ln 10).
Proof.
  induction df as [|r df IH] using rev_ind.
  - unfold elo_replay. simpl. split; [reflexivity | lra].
  - rewrite elo_replay_snoc. destruct IH as [Hn [Hlo Hhi]].
    rewrite length_app, Nat.add_comm. cbn [length Nat.add elo_step n ll].
    split; [rewrite Hn; reflexivity|].
    rewrite S_INR.
    pose proof (logistic_bounds
                  (rating_of (ratings (elo_replay K HFA df)) (home r)
                   - rating_of (ratings (elo_replay K HFA df)) (away r) + HFA))
      as [Hp0 Hp1].
    fold (p_home_of HFA (ratings (elo_replay K HFA df)) r) in Hp0, Hp1.
    pose proof (ln_floored (p_home_of HFA (ratings (elo_replay K HFA df)) r) Hp1)
      as [Ha1 Ha2].
    pose proof (ln_floored (1 - p_home_of HFA (ratings (elo_replay K HFA df)) r)
                  ltac:(lra)) as [Hb1 Hb2].
    rewrite ln_eps in Ha1, Hb1.
    destruct (outcome_values r) as [Hy | [Hy | Hy]]; rewrite Hy; lra.
Qed.

(** [run_elo] counts one pass per row, and the mean log-loss it returns is
    never negative and never above [9 ln 10] (the floor [eps = 1e-9] caps
    each term). *)
Theorem run_elo_loss_bounds (df : list Match) (K HFA : R) :
  n (elo_replay K HFA df) = length df
  /\ snd (run_elo df K HFA)
     = ll (elo_replay K HFA df) / INR (Nat.max (length df) 1)
  /\ 0 <= snd (run_elo df K HFA) <= 9 * ln 10.
Proof.
  destruct (elo_replay_invariant K HFA df) as [Hn [Hlo Hhi]].
  split; [exact Hn|].
  unfold run_elo. cbn [snd]. rewrite Hn. split; [reflexivity|].
  assert (Hl : 0 < ln 10) by (rewrite <- ln_1; apply ln_increasing; lra).
  assert (Hm : 1 <= INR (Nat.max (length df) 1)).
  { change 1 with (INR 1). apply le_INR. lia. }
  assert (Hle : INR (length df) <= INR (Nat.max (length df) 1))
    by (apply le_INR; lia).
  split.
  - apply Rmult_le_pos; [exact Hlo|]. left. apply Rinv_0_lt_compat. lra.
  - apply (Rmult_le_reg_r (INR (Nat.max (length df) 1))); [lra|].
    unfold Rdiv. rewrite Rmult_assoc, Rinv_l, Rmult_1_r by lra.
    apply Rle_trans with (INR (length df) * (9 * ln 10)); [exact Hhi|].
    rewrite (Rmult_comm (9 * ln 10)). apply Rmult_le_compat_r; lra.
Qed.

Lemma teams_of_cons (r : Match) (df : list Match) :
  teams_of (r :: df) = {[home r]} ∪ ({[away r]} ∪ teams_of df).
Proof. reflexivity. Qed.

Lemma elo_fold_dom (K HFA : R) (df : list Match) (st : EloState) :
  dom (ratings (fold_left (elo_step K HFA) df st)) = teams_of df ∪ dom (ratings st).
Proof.
  revert st. induction df as [|r df IH]; intros st.
  - cbn [fold_left]. unfold teams_of. cbn [flat_map list_to_set].
    apply set_eq. intros x. rewrite elem_of_union, elem_of_empty. tauto.
  - cbn [fold_left]. rewrite IH, teams_of_cons. cbn [elo_step ratings].
    rewrite !dom_insert_L. apply set_eq. intros x.
    rewrite !elem_of_union, !elem_of_singleton. tauto.
Qed.

(** After a replay the rated competitors are exactly those the history
    names; every other competitor still reads as 1500. *)
Theorem run_elo_rated_teams (df : list Match) (K HFA : R) :
  dom (fst (run_elo df K HFA)) = teams_of df
  /\ (forall t : string,
        t ∈ teams_of df <-> exists r, In r df /\ (home r = t \/ away r = t))
  /\ (forall t : string, t ∉ teams_of df -> rating_of (fst (run_elo df K HFA)) t = 1500).
Proof.
  assert (Hdom : dom (fst (run_elo df K HFA)) = teams_of df).
  { unfold run_elo, elo_replay. cbn [fst]. rewrite elo_fold_dom.
    cbn [elo_init ratings]. rewrite dom_empty_L.
    apply set_eq. intros x. rewrite elem_of_union, elem_of_empty. tauto. }
  split; [exact Hdom|]. split.
  - intros t. unfold teams_of. rewrite elem_of_list_to_set, list_elem_of_In, in_flat_map.
    split.
    + intros (r & Hr & Ht). exists r. split; [exact Hr|].
      destruct Ht as [Ht|[Ht|[]]]; auto.
    + intros (r & Hr & Ht). exists r. split; [exact Hr|].
      destruct Ht as [Ht|Ht]; [left|right; left]; exact Ht.
  - intros t Ht. unfold rating_of.
    rewrite <- Hdom in Ht. apply not_elem_of_dom in Ht. rewrite Ht. reflexivity.
Qed.

Lemma run_elo_rated_teams_witness :
  rating_of (fst (run_elo [mkMatch "A" "B" 20 10] 30 60)) "C" = 1500.
Proof.
  apply (run_elo_rated_teams [mkMatch "A" "B" 20 10] 30 60).
  unfold teams_of. cbn [flat_map app list_to_set home away].
  rewrite !elem_of_union, !elem_of_singleton, elem_of_empty.
  intros [H|[H|H]]; [discriminate | discriminate | exact H].
Defined.

Lemma rating_total_comm (j1 j2 : string) (z1 z2 y : R) :
  z1 + (z2 + y) = z2 + (z1 + y).
Proof. lra. Qed.

Lemma rating_total_insert_None (m : gmap string R) (k : string) (v : R) :
  m !! k = None -> rating_total (<[k := v]> m) = v + rating_total m.
Proof.
  intros Hk. unfold rating_total.
  apply (map_fold_insert_L (fun _ v acc => v + acc)); [|exact Hk].
  intros. apply (rating_total_comm j1 j2).
Qed.

(** What one assignment [ratings[k] = v] does to the surplus of the total
    over 1500 a head. *)
Lemma rating_surplus_insert (m : gmap string R) (k : string) (v : R) :
  rating_total (<[k := v]> m) - 1500 * INR (size (<[k := v]> m))
  = rating_total m - 1500 * INR (size m) + (v - rating_of m k).
Proof.
  unfold rating_of. destruct (m !! k) as [x|] eqn:Hk; cbn [default].
  - rewrite map_size_insert_Some by eauto.
    assert (Et : rating_total m = x + rating_total (delete k m)).
    { rewrite <- (insert_delete_id m k x Hk) at 1.
      apply rating_total_insert_None, lookup_delete_eq. }
    rewrite <- (insert_delete_eq m k v).
    rewrite rating_total_insert_None by apply lookup_delete_eq.
    rewrite Et. change (Datatypes.id x) with x. lra.
  - rewrite map_size_insert_None by exact Hk.
    rewrite rating_total_insert_None by exact Hk. rewrite S_INR. lra.
Qed.

Lemma elo_step_surplus (K HFA : R) (st : EloState) (r : Match) :
  home r <> away r ->
  rating_total (ratings (elo_step K HFA st r))
  - 1500 * INR (size (ratings (elo_step K HFA st r)))
  = rating_total (ratings st) - 1500 * INR (size (ratings st)).
Proof.
  intros Hne. cbn [elo_step ratings].
  rewrite !rating_surplus_insert.
  rewrite rating_of_insert_ne by exact Hne. lra.
Qed.

(** When no row pits a side against itself, a replay conserves rating
    points: the ratings of the rated competitors add up to 1500 each. *)
Theorem run_elo_total_conserved (df : list Match) (K HFA : R) :
  (forall r, In r df -> home r <> away r) ->
  rating_total (fst (run_elo df K HFA))
  = 1500 * INR (size (fst (run_elo df K HFA))).
Proof.
  intros Hne. unfold run_elo. cbn [fst].
  assert (H : rating_total (ratings (elo_replay K HFA df))
              - 1500 * INR (size (ratings (elo_replay K HFA df))) = 0).
  { induction df as [|r df IH] using rev_ind.
    - unfold elo_replay, rating_total. cbn [fold_left elo_init ratings].
      rewrite map_fold_empty, map_size_empty. simpl. lra.
    - rewrite elo_replay_snoc, elo_step_surplus.
      + apply IH. intros r' Hr'. apply Hne, in_or_app. left. exact Hr'.
      + apply Hne, in_or_app. right. left. reflexivity. }
  lra.
Qed.

Lemma run_elo_total_conserved_witness :
  rating_total (fst (run_elo [mkMatch "A" "B" 20 10; mkMatch "B" "C" 6 6] 30 60))
  = 1500 * INR (size (fst (run_elo [mkMatch "A" "B" 20 10; mkMatch "B" "C" 6 6] 30 60))).
Proof.
  apply (run_elo_total_conserved [mkMatch "A" "B" 20 10; mkMatch "B" "C" 6 6] 30 60).
  intros r [<-|[<-|[]]]; discriminate.
Defined.

Lemma k_eff_of_lower (K : R) (r : Match) : 0 < K -> K <= k_eff_of K r.
Proof.
  intros HK. unfold k_eff_of.
  assert (Hl : 0 <= ln (1 + Rabs (hs r - as_ r))).
  { rewrite <- ln_1. apply ln_nondecreasing; [lra|].
    pose proof (Rabs_pos (hs r - as_ r)). lra. }
  assert (K * 1 <= K * (1 + ln (1 + Rabs (hs r - as_ r))))
    by (apply Rmult_le_compat_l; lra).
  lra.
Qed.

Lemma elo_step_ratings (K HFA : R) (st : EloState) (r : Match) :
  home r <> away r ->
  let delta := k_eff_of K r * (outcome r - p_home_of HFA (ratings st) r) in
  rating_of (ratings (elo_step K HFA st r)) (home r)
    = rating_of (ratings st) (home r) + delta
  /\ rating_of (ratings (elo_step K HFA st r)) (away r)
    = rating_of (ratings st) (away r) - delta.
Proof.
  intros Hne delta. cbn [elo_step ratings]. split.
  - rewrite rating_of_insert_ne by congruence. apply rating_of_insert_eq.
  - apply rating_of_insert_eq.
Qed.

(** With a positive update rate and two distinct competitors, the winner
    of a match gains rating and the loser loses it, however likely the
    result was; after a tie the home side loses rating exactly when it was
    the favourite. *)
Theorem run_elo_winner_gains (K HFA : R) (pre : list Match) (r : Match) :
  0 < K -> home r <> away r ->
  let st := elo_replay K HFA pre in
  let st' := elo_replay K HFA (pre ++ [r]) in
  (hs r > as_ r ->
     rating_of (ratings st') (home r) > rating_of (ratings st) (home r)
     /\ rating_of (ratings st') (away r) < rating_of (ratings st) (away r))
  /\ (as_ r > hs r ->
     rating_of (ratings st') (home r) < rating_of (ratings st) (home r)
     /\ rating_of (ratings st') (away r) > rating_of (ratings st) (away r))
  /\ (hs r = as_ r ->
     (rating_of (ratings st') (home r) < rating_of (ratings st) (home r)
      <-> 1 / 2 < p_home_of HFA (ratings st) r)).
Proof.
  intros HK Hne st st'.
  unfold st'. rewrite elo_replay_snoc. fold st.
  destruct (elo_step_ratings K HFA st r Hne) as [Hh Ha]. cbv zeta in Hh, Ha.
  rewrite Hh, Ha.
  pose proof (k_eff_of_lower K r HK) as Hk.
  pose proof (logistic_bounds
                (rating_of (ratings st) (home r) - rating_of (ratings st) (away r) + HFA))
    as [Hp0 Hp1].
  fold (p_home_of HFA (ratings st) r) in Hp0, Hp1.
  destruct (outcome_cases r) as (Hw & Hl & Ht).
  assert (Hpos : forall z, 0 < z -> 0 < k_eff_of K r * z)
    by (intros z Hz; apply Rmult_lt_0_compat; lra).
  split; [|split].
  - intros H. rewrite (Hw H).
    pose proof (Hpos (1 - p_home_of HFA (ratings st) r) ltac:(lra)). lra.
  - intros H. rewrite (Hl H).
    pose proof (Hpos (p_home_of HFA (ratings st) r - 0) ltac:(lra)) as Hq.
    replace (k_eff_of K r * (0 - p_home_of HFA (ratings st) r))
      with (- (k_eff_of K r * (p_home_of HFA (ratings st) r - 0))) by ring.
    lra.
  - intros H. rewrite (Ht H). split; intros Hlt.
    + destruct (Rlt_le_dec (1 / 2) (p_home_of HFA (ratings st) r)) as [|Hle]; [assumption|].
      exfalso.
      assert (0 <= k_eff_of K r * (1 / 2 - p_home_of HFA (ratings st) r))
        by (apply Rmult_le_pos; lra).
      lra.
    + pose proof (Hpos (p_home_of HFA (ratings st) r - 1 / 2) ltac:(lra)) as Hq.
      replace (k_eff_of K r * (1 / 2 - p_home_of HFA (ratings st) r))
        with (- (k_eff_of K r * (p_home_of HFA (ratings st) r - 1 / 2))) by ring.
      lra.
Qed.

Lemma run_elo_winner_gains_witness :
  rating_of (ratings (elo_replay 30 60 ([] ++ [mkMatch "A" "B" 20 10]))) "A"
  > rating_of (ratings (elo_replay 30 60 [])) "A".
Proof.
  apply (run_elo_winner_gains 30 60 [] (mkMatch "A" "B" 20 10));
    [lra | discriminate | simpl; lra].
Defined.

(** ** Best of market: the scan of the quotes *)

Lemma improves_true (p : pyval) (cur : option pyval) :
  improves p cur = true ->
  is_number p = true /\ (forall b, cur = Some b -> num b < num p).
Proof.
  unfold improves. intros H. apply andb_prop in H as [Hn Hc].
  split; [exact Hn|]. intros b Hb. subst cur.
  destruct (Rgt_dec (num p) (num b)); [lra | discriminate].
Qed.

Lemma improves_false (p : pyval) (cur : option pyval) :
  improves p cur = false ->
  is_number p = false \/ (exists b, cur = Some b /\ num p <= num b).
Proof.
  unfold improves. destruct (is_number p); [|auto]. simpl.
  destruct cur as [b|]; [|discriminate].
  destruct (Rgt_dec (num p) (num b)); [discriminate|].
  intros _. right. exists b. split; [reflexivity | lra].
Qed.

(** One more quote keeps the running best the first largest number. *)
Lemma side_inv_step (l : list (option string * pyval)) (cur : option pyval)
    (bk bkey : option string) (p : pyval) :
  side_inv l cur bk ->
  side_inv (l ++ [(bkey, p)])
    (if improves p cur then Some p else cur)
    (if improves p cur then bkey else bk).
Proof.
  intros Hinv. destruct (improves p cur) eqn:Himp.
  - apply improves_true in Himp as [Hn Hgt]. cbn [side_inv].
    split; [exact Hn|]. split.
    + intros q Hq Hqn. apply in_app_or in Hq as [Hq|[<-|[]]]; [|cbn; lra].
      destruct cur as [b|]; cbn [side_inv] in Hinv.
      * destruct Hinv as (_ & Hmax & _). specialize (Hmax q Hq Hqn).
        specialize (Hgt b eq_refl). lra.
      * rewrite (Hinv q Hq) in Hqn. discriminate.
    + exists l, []. split; [reflexivity|]. intros q Hq Hqn.
      destruct cur as [b|]; cbn [side_inv] in Hinv.
      * destruct Hinv as (_ & Hmax & _). specialize (Hmax q Hq Hqn).
        specialize (Hgt b eq_refl). lra.
      * rewrite (Hinv q Hq) in Hqn. discriminate.
  - apply improves_false in Himp.
    destruct cur as [b|]; cbn [side_inv] in *.
    + destruct Hinv as (Hb & Hmax & pre & post & Hl & Hpre).
      split; [exact Hb|]. split.
      * intros q Hq Hqn. apply in_app_or in Hq as [Hq|[<-|[]]]; [auto|].
        cbn [snd] in *. destruct Himp as [Hp|(b' & [= <-] & Hle)];
          [congruence | exact Hle].
      * exists pre, (post ++ [(bkey, p)]). split; [|exact Hpre].
        rewrite Hl, <- app_assoc. reflexivity.
    + intros q Hq. apply in_app_or in Hq as [Hq|[<-|[]]]; [auto|].
      cbn [snd]. destruct Himp as [Hp|(b' & Hb' & _)]; [exact Hp | discriminate].
Qed.

(** A market key other than ["h2h"] takes the default branch. *)
Lemma h2h_match_other (X : Type) (x y : X) (k : string) :
  k <> "h2h"%string ->
  match k with "h2h"%string => x | _ => y end = y.
Proof.
  intros Hk.
  destruct k as [|c1 k]; [reflexivity|].
  destruct c1 as [[] [] [] [] [] [] [] []]; try reflexivity.
  destruct k as [|c2 k]; [reflexivity|].
  destruct c2 as [[] [] [] [] [] [] [] []]; try reflexivity.
  destruct k as [|c3 k]; [reflexivity|].
  destruct c3 as [[] [] [] [] [] [] [] []]; try reflexivity.
  destruct k as [|c4 k]; [congruence | reflexivity].
Qed.

Lemma scan_market_inv (h a : string) (bkey : option string)
    (seen : list (option string * pyval * pyval)) (acc : Best) (m : Market) :
  side_inv (home_quotes seen) (best_home acc) (book_h acc) ->
  side_inv (away_quotes seen) (best_away acc) (book_a acc) ->
  side_inv (home_quotes (seen ++ market_quote h a bkey m))
    (best_home (scan_market h a bkey acc m)) (book_h (scan_market h a bkey acc m))
  /\ side_inv (away_quotes (seen ++ market_quote h a bkey m))
    (best_away (scan_market h a bkey acc m)) (book_a (scan_market h a bkey acc m)).
Proof.
  intros Hh Ha. unfold scan_market, market_quote.
  destruct (m_key m) as [k|]; [|rewrite app_nil_r; auto].
  destruct (String.eqb_spec k "h2h") as [Hk|Hk].
  2:{ rewrite !(h2h_match_other _ _ _ k Hk), app_nil_r. auto. }
  subst k.
  cbv zeta. unfold home_quotes, away_quotes. rewrite !map_app. cbn [map fst snd].
  pose proof (side_inv_step _ _ _ bkey
                (dict_get (outcome_dict (outcomes m)) h) Hh) as Sh.
  pose proof (side_inv_step _ _ _ bkey
                (dict_get (outcome_dict (outcomes m)) a) Ha) as Sa.
  fold (home_quotes seen) (away_quotes seen).
  destruct (improves (dict_get (outcome_dict (outcomes m)) h) (best_home acc));
    cbn [best_home book_h best_away book_a];
    destruct (improves (dict_get (outcome_dict (outcomes m)) a) (best_away acc));
    cbn [best_home book_h best_away book_a]; auto.
Qed.

Lemma scan_bookmaker_inv (h a : string) (bk : Bookmaker)
    (seen : list (option string * pyval * pyval)) (acc : Best) :
  side_inv (home_quotes seen) (best_home acc) (book_h acc) ->
  side_inv (away_quotes seen) (best_away acc) (book_a acc) ->
  side_inv (home_quotes (seen ++ flat_map (market_quote h a (bk_key bk)) (markets bk)))
    (best_home (scan_bookmaker h a acc bk)) (book_h (scan_bookmaker h a acc bk))
  /\ side_inv (away_quotes (seen ++ flat_map (market_quote h a (bk_key bk)) (markets bk)))
    (best_away (scan_bookmaker h a acc bk)) (book_a (scan_bookmaker h a acc bk)).
Proof.
  unfold scan_bookmaker. generalize (markets bk) as ms. intros ms.
  revert seen acc. induction ms as [|m ms IH]; intros seen acc Hh Ha.
  - cbn [flat_map fold_left]. rewrite app_nil_r. auto.
  - cbn [flat_map fold_left]. rewrite app_assoc.
    destruct (scan_market_inv h a (bk_key bk) seen acc m Hh Ha) as [Hh' Ha'].
    apply IH; assumption.
Qed.

Lemma best_prices_inv (h a : string) (bks : list Bookmaker) :
  side_inv (home_quotes (quotes h a bks))
    (best_home (best_prices h a bks)) (book_h (best_prices h a bks))
  /\ side_inv (away_quotes (quotes h a bks))
    (best_away (best_prices h a bks)) (book_a (best_prices h a bks)).
Proof.
  unfold best_prices, quotes.
  assert (G : forall seen acc,
             side_inv (home_quotes seen) (best_home acc) (book_h acc) ->
             side_inv (away_quotes seen) (best_away acc) (book_a acc) ->
             side_inv
               (home_quotes
                  (seen ++ flat_map
                     (fun bk => flat_map (market_quote h a (bk_key bk)) (markets bk)) bks))
               (best_home (fold_left (scan_bookmaker h a) bks acc))
               (book_h (fold_left (scan_bookmaker h a) bks acc))
             /\ side_inv
               (away_quotes
                  (seen ++ flat_map
                     (fun bk => flat_map (market_quote h a (bk_key bk)) (markets bk)) bks))
               (best_away (fold_left (scan_bookmaker h a) bks acc))
               (book_a (fold_left (scan_bookmaker h a) bks acc))).
  { induction bks as [|bk bks IH]; intros seen acc Hh Ha.
    - cbn [flat_map fold_left]. rewrite app_nil_r. auto.
    - cbn [flat_map fold_left]. rewrite app_assoc.
      destruct (scan_bookmaker_inv h a bk seen acc Hh Ha) as [Hh' Ha'].
      apply IH; assumption. }
  apply (G [] best_init); cbn; intros q [].
Qed.

Lemma side_inv_None_iff (l : list (option string * pyval)) (cur : option pyval)
    (bk : option string) :
  side_inv l cur bk ->
  (cur = None <-> forall q, In q l -> is_number (snd q) = false).
Proof.
  intros Hinv. destruct cur as [p|]; cbn [side_inv] in Hinv.
  - split; [discriminate|]. intros Hall. exfalso.
    destruct Hinv as (Hp & _ & pre & post & Hl & _).
    assert (Hin : In (bk, p) l) by (rewrite Hl; apply in_or_app; right; left; reflexivity).
    specialize (Hall _ Hin). cbn in Hall. congruence.
  - split; [intros _; exact Hinv | reflexivity].
Qed.

(** The scan keeps, for each side on its own, the largest numeric price
    among the ["h2h"] quotes of all books, with the first book that quotes
    it; a side stays unpriced exactly when no quote for it is a number. *)
Theorem best_prices_best_of_market (h a : string) (bks : list Bookmaker) :
  let b := best_prices h a bks in
  let hq := home_quotes (quotes h a bks) in
  let aq := away_quotes (quotes h a bks) in
  (best_home b = None <-> forall q, In q hq -> is_number (snd q) = false)
  /\ (forall p, best_home b = Some p -> first_best hq p (book_h b))
  /\ (best_away b = None <-> forall q, In q aq -> is_number (snd q) = false)
  /\ (forall p, best_away b = Some p -> first_best aq p (book_a b)).
Proof.
  intros b hq aq. destruct (best_prices_inv h a bks) as [Hh Ha].
  fold b hq in Hh. fold b aq in Ha.
  split; [apply (side_inv_None_iff _ _ _ Hh)|].
  split; [intros p Hp; rewrite Hp in Hh; exact Hh|].
  split; [apply (side_inv_None_iff _ _ _ Ha)|].
  intros p Hp. rewrite Hp in Ha. exact Ha.
Qed.

Lemma best_prices_best_of_market_witness :
  first_best
    (home_quotes (quotes "A" "B"
       [quote "x" "A" "B" 2 (19 / 10); quote "y" "A" "B" (21 / 10) (18 / 10)]))
    (PyFloat (21 / 10)) (Some "y"%string).
Proof.
  pose proof (best_prices_best_of_market "A" "B"
                [quote "x" "A" "B" 2 (19 / 10); quote "y" "A" "B" (21 / 10) (18 / 10)])
    as (_ & H & _).
  assert (E : best_prices "A" "B"
                [quote "x" "A" "B" 2 (19 / 10); quote "y" "A" "B" (21 / 10) (18 / 10)]
              = {| best_home := Some (PyFloat (21 / 10)); book_h := Some "y"%string;
                   best_away := Some (PyFloat (19 / 10)); book_a := Some "x"%string |}).
  { unfold best_prices, quote. cbn [fold_left scan_bookmaker markets bk_key].
    unfold scan_market. cbn [m_key outcomes].
    change (dict_get (outcome_dict [mkOutcome (Some "A"%string) (PyFloat 2);
                                    mkOutcome (Some "B"%string) (PyFloat (19 / 10))]) "A")
      with (PyFloat 2).
    change (dict_get (outcome_dict [mkOutcome (Some "A"%string) (PyFloat 2);
                                    mkOutcome (Some "B"%string) (PyFloat (19 / 10))]) "B")
      with (PyFloat (19 / 10)).
    change (dict_get (outcome_dict [mkOutcome (Some "A"%string) (PyFloat (21 / 10));
                                    mkOutcome (Some "B"%string) (PyFloat (18 / 10))]) "A")
      with (PyFloat (21 / 10)).
    change (dict_get (outcome_dict [mkOutcome (Some "A"%string) (PyFloat (21 / 10));
                                    mkOutcome (Some "B"%string) (PyFloat (18 / 10))]) "B")
      with (PyFloat (18 / 10)).
    cbv zeta. unfold improves. cbn [best_init best_home best_away book_h book_a
                                    is_number andb num].
    destruct (Rgt_dec (21 / 10) 2) as [_|N]; [|exfalso; lra].
    cbn [best_home best_away book_h book_a is_number andb num].
    destruct (Rgt_dec (18 / 10) (19 / 10)) as [N|_]; [exfalso; lra|].
    reflexivity. }
  rewrite E in H. exact (H _ eq_refl).
Defined.

(** ** A market's price table *)

Lemma outcome_dict_snoc (os : list Outcome) (o : Outcome) :
  outcome_dict (os ++ [o]) =
    match o_name o with
    | Some nm => <[nm := o_price o]> (outcome_dict os)
    | None => outcome_dict os
    end.
Proof. unfold outcome_dict. rewrite fold_left_app. reflexivity. Qed.

(** The price read for a team is that of the last outcome listed under
    its name, and [None] when no outcome carries the name. *)
Theorem dict_get_last_listed (os : list Outcome) (t : string) :
  dict_get (outcome_dict os) t =
    match find (named t) (rev os) with
    | Some o => o_price o
    | None => PyNone
    end.
Proof.
  induction os as [|o os IH] using rev_ind.
  - unfold dict_get, outcome_dict. cbn. rewrite lookup_empty. reflexivity.
  - rewrite rev_unit, outcome_dict_snoc. cbn [find]. unfold named at 1.
    destruct (o_name o) as [nm|]; [|exact IH].
    destruct (String.eqb_spec nm t) as [->|Hne].
    + unfold dict_get. rewrite lookup_insert_eq. reflexivity.
    + unfold dict_get in *. rewrite lookup_insert_ne by exact Hne. exact IH.
Qed.

(** ** Rounding is monotone *)

Lemma round_half_even_range (y : R) :
  (Zfloor y <= round_half_even y <= Zfloor y + 1)%Z.
Proof.
  unfold round_half_even.
  destruct (Rlt_dec _ _); [lia|]. destruct (Rlt_dec _ _); [lia|].
  destruct (Z.even _); lia.
Qed.

Lemma round_half_even_mono (x y : R) :
  x <= y -> (round_half_even x <= round_half_even y)%Z.
Proof.
  intros Hxy. pose proof (Zfloor_le x y Hxy) as Hf.
  pose proof (round_half_even_range x) as Rx.
  pose proof (round_half_even_range y) as Ry.
  destruct (Z.eq_dec (Zfloor x) (Zfloor y)) as [E|N]; [|lia].
  unfold round_half_even. rewrite E.
  destruct (Rlt_dec (x - IZR (Zfloor y)) (1 / 2)) as [X1|X1].
  { destruct (Rlt_dec (y - IZR (Zfloor y)) (1 / 2)); [lia|].
    destruct (Rlt_dec (1 / 2) (y - IZR (Zfloor y))); [lia|].
    destruct (Z.even (Zfloor y)); lia. }
  destruct (Rlt_dec (y - IZR (Zfloor y)) (1 / 2)) as [Y1|Y1]; [exfalso; lra|].
  destruct (Rlt_dec (1 / 2) (x - IZR (Zfloor y))) as [X2|X2].
  { destruct (Rlt_dec (1 / 2) (y - IZR (Zfloor y))); [lia | exfalso; lra]. }
  destruct (Rlt_dec (1 / 2) (y - IZR (Zfloor y))) as [Y2|Y2].
  { destruct (Z.even (Zfloor y)); lia. }
  destruct (Z.even (Zfloor y)); lia.
Qed.

Lemma round_half_even_IZR (z : Z) : round_half_even (IZR z) = z.
Proof.
  unfold round_half_even. rewrite ZfloorZ.
  destruct (Rlt_dec (IZR z - IZR z) (1 / 2)); [reflexivity | exfalso; lra].
Qed.

Lemma pyround_mono (x y : R) (k : nat) : x <= y -> pyround x k <= pyround y k.
Proof.
  intros Hxy. unfold pyround. pose proof (pow10_pos k) as Hp.
  unfold Rdiv. apply Rmult_le_compat_r; [left; apply Rinv_0_lt_compat; exact Hp|].
  apply IZR_le, round_half_even_mono, Rmult_le_compat_r; lra.
Qed.

Lemma pyround_0 (k : nat) : pyround 0 k = 0.
Proof.
  unfold pyround. rewrite Rmult_0_l. change 0 with (IZR 0) at 1.
  rewrite round_half_even_IZR. unfold Rdiv. apply Rmult_0_l.
Qed.

Lemma pyround_1 (k : nat) : pyround 1 k = 1.
Proof.
  unfold pyround. rewrite Rmult_1_l.
  replace (10 ^ k) with (IZR (10 ^ Z.of_nat k)) by (rewrite <- pow_IZR; reflexivity).
  rewrite round_half_even_IZR.
  assert (0 < IZR (10 ^ Z.of_nat k)) by (rewrite <- pow_IZR; apply pow10_pos).
  field. lra.
Qed.

(** ** What an emitted row holds *)

Lemma devig_two_way_Some (a b : pyval) (ma mb : R) :
  devig_two_way a b = Some (ma, mb) ->
  is_number a = true /\ is_number b = true /\ 1 < num a /\ 1 < num b
  /\ 0 < ma < 1 /\ 0 < mb < 1.
Proof.
  unfold devig_two_way.
  destruct (is_number a), (is_number b); cbn [andb negb]; try discriminate.
  destruct (Rle_dec (num a) 1) as [|La]; [discriminate|].
  destruct (Rle_dec (num b) 1) as [|Lb]; [discriminate|].
  intros [= <- <-].
  destruct (normalized_pair (num a) (num b)) as (_ & H1 & H2); [lra | lra |].
  repeat split; first [reflexivity | lra].
Qed.

Lemma pick_event_Some_inv (B KF EM MK : R) (rt : gmap string R) (HFA : R)
    (ev : Event) (row : Row) :
  pick_event B KF EM MK rt HFA ev = Some row ->
  exists (h a : string) (ph pa : pyval) (m_home m_away : R),
    truthy_name (home_team ev) = Some h
    /\ truthy_name (away_team ev) = Some a
    /\ best_home (best_prices h a (bookmakers ev)) = Some ph
    /\ best_away (best_prices h a (bookmakers ev)) = Some pa
    /\ devig_two_way ph pa = Some (m_home, m_away)
    /\ EM <= c_edge (choose_side rt HFA h a (best_prices h a (bookmakers ev))
                       m_home m_away ph pa)
    /\ row = make_row B KF MK (commence_time ev) h a
               (choose_side rt HFA h a (best_prices h a (bookmakers ev))
                  m_home m_away ph pa).
Proof.
  unfold pick_event.
  destruct (truthy_name (home_team ev)) as [h|]; [|discriminate].
  destruct (truthy_name (away_team ev)) as [a|]; [|discriminate].
  destruct (best_home _) as [ph|] eqn:Hph; [|discriminate].
  destruct (best_away _) as [pa|] eqn:Hpa; [|discriminate].
  destruct (devig_two_way ph pa) as [[mh ma]|] eqn:Hd; [|discriminate].
  destruct (Rlt_dec _ EM) as [|Hge]; [discriminate|].
  intros [= <-]. exists h, a, ph, pa, mh, ma.
  repeat split; try reflexivity; try assumption. lra.
Qed.

Lemma choose_side_cases (rt : gmap string R) (HFA : R) (h a : string) (b : Best)
    (m_home m_away : R) (ph pa : pyval) :
  choose_side rt HFA h a b m_home m_away ph pa =
    {| c_side := "HOME"; c_p := fst (model_probs rt HFA h a); c_price := ph;
       c_mp := m_home; c_edge := fst (edges rt HFA h a m_home m_away);
       c_book := book_h b; c_sel := h |}
  \/ choose_side rt HFA h a b m_home m_away ph pa =
    {| c_side := "AWAY"; c_p := snd (model_probs rt HFA h a); c_price := pa;
       c_mp := m_away; c_edge := snd (edges rt HFA h a m_home m_away);
       c_book := book_a b; c_sel := a |}.
Proof.
  destruct (Rge_dec (fst (edges rt HFA h a m_home m_away))
                    (snd (edges rt HFA h a m_home m_away))) as [H|H].
  - left. apply choose_side_home, H.
  - right. apply choose_side_away. apply Rnot_ge_lt, H.
Qed.

Lemma truthy_name_nonempty (o : option string) (s : string) :
  truthy_name o = Some s -> o = Some s /\ s <> ""%string.
Proof.
  unfold truthy_name. destruct o as [x|]; [|discriminate].
  destruct (String.eqb_spec x "") as [->|Hne]; [discriminate|].
  intros [= <-]. auto.
Qed.

(** A row is emitted only for a contest with two named sides and a
    numeric best price above 1 on each side; it carries the best price of
    the picked side with the book quoting it, and its recorded edge is at
    least the threshold rounded to four decimals. *)
Theorem pick_event_row_priced (B KF EM MK : R) (rt : gmap string R) (HFA : R)
    (ev : Event) (row : Row) :
  pick_event B KF EM MK rt HFA ev = Some row ->
  exists (h a : string) (ph pa : pyval),
    home_team ev = Some h /\ away_team ev = Some a
    /\ h <> ""%string /\ a <> ""%string
    /\ match_label row = (h ++ " vs " ++ a)%string
    /\ best_home (best_prices h a (bookmakers ev)) = Some ph
    /\ best_away (best_prices h a (bookmakers ev)) = Some pa
    /\ is_number ph = true /\ is_number pa = true
    /\ 1 < num ph /\ 1 < num pa
    /\ ((pick_label row = ("HOME" ++ " — " ++ h)%string
         /\ best_odds row = ph
         /\ book row = book_h (best_prices h a (bookmakers ev)))
        \/ (pick_label row = ("AWAY" ++ " — " ++ a)%string
            /\ best_odds row = pa
            /\ book row = book_a (best_prices h a (bookmakers ev))))
    /\ pyround EM 4 <= edge row.
Proof.
  intros Hp.
  destruct (pick_event_Some_inv _ _ _ _ _ _ _ _ Hp)
    as (h & a & ph & pa & mh & ma & Hh & Ha & Hph & Hpa & Hd & Hedge & ->).
  destruct (truthy_name_nonempty _ _ Hh) as [Eh Nh].
  destruct (truthy_name_nonempty _ _ Ha) as [Ea Na].
  destruct (devig_two_way_Some _ _ _ _ Hd) as (Nph & Npa & Lph & Lpa & _).
  exists h, a, ph, pa.
  repeat (split; [assumption|]).
  split; [reflexivity|].
  repeat (split; [assumption|]).
  split.
  - destruct (choose_side_cases rt HFA h a (best_prices h a (bookmakers ev))
                mh ma ph pa) as [E|E]; rewrite E; [left | right];
      repeat split; reflexivity.
  - cbn [make_row edge]. apply pyround_mono, Hedge.
Qed.

Lemma pick_event_row_priced_witness :
  exists (h a : string) (ph pa : pyval),
    home_team contest_AB = Some h /\ away_team contest_AB = Some a
    /\ 1 < num ph /\ 1 < num pa
    /\ pyround (2 / 100) 4 <= edge row_AB.
Proof.
  destruct (pick_event_row_priced 1000 (1 / 2) (2 / 100) (2 / 100) ∅ 60
              contest_AB row_AB pick_contest_AB)
    as (h & a & ph & pa & Hh & Ha & _ & _ & _ & _ & _ & _ & _ & Lh & La & _ & He).
  exists h, a, ph, pa. auto.
Defined.

(** With a bankroll and a cap that are not negative, every emitted row has
    a stake between 0 and the rounded product of bankroll and cap, a Kelly
    percentage between 0 and the rounded cap, a profit and a payout that are
    not negative, and two probabilities between 0 and 1. *)
Theorem pick_event_row_bounds (B KF EM MK : R) (rt : gmap string R) (HFA : R)
    (ev : Event) (row : Row) :
  0 <= B -> 0 <= MK ->
  pick_event B KF EM MK rt HFA ev = Some row ->
  0 <= stake row <= pyround (B * MK) 2
  /\ 0 <= kelly_pct row <= pyround (MK * 100) 2
  /\ 0 <= profit row
  /\ 0 <= payout row
  /\ 0 <= market_p row <= 1
  /\ 0 <= model_p row <= 1.
Proof.
  intros HB HMK Hp.
  destruct (pick_event_Some_inv _ _ _ _ _ _ _ _ Hp)
    as (h & a & ph & pa & mh & ma & Hh & Ha & Hph & Hpa & Hd & Hedge & ->).
  destruct (devig_two_way_Some _ _ _ _ Hd) as (Nph & Npa & Lph & Lpa & Hmh & Hma).
  pose proof (logistic_bounds (rating_of rt h - rating_of rt a + HFA)) as Hlog.
  set (c := choose_side rt HFA h a (best_prices h a (bookmakers ev)) mh ma ph pa).
  assert (Hc : 1 < num (c_price c) /\ 0 < c_mp c < 1 /\ 0 < c_p c < 1).
  { unfold c. destruct (choose_side_cases rt HFA h a
                          (best_prices h a (bookmakers ev)) mh ma ph pa) as [E|E];
      rewrite E; cbn [c_price c_mp c_p model_probs fst snd];
      repeat split; lra. }
  destruct Hc as (Hprice & Hmp & Hcp).
  pose proof (kelly_fraction_range MK (c_p c) (num (c_price c)) KF HMK) as [Hk0 Hk1].
  cbn [make_row stake kelly_pct profit payout market_p model_p].
  assert (Hs0 : 0 <= pyround (B * kelly_fraction MK (c_p c) (num (c_price c)) KF) 2).
  { rewrite <- (pyround_0 2). apply pyround_mono. apply Rmult_le_pos; assumption. }
  assert (R0 : forall x, 0 <= x -> 0 <= pyround x 2).
  { intros x Hx. rewrite <- (pyround_0 2). apply pyround_mono, Hx. }
  split; [split; [exact Hs0|]|].
  { apply pyround_mono. apply Rmult_le_compat_l; assumption. }
  split; [split|].
  { apply R0. apply Rmult_le_pos; lra. }
  { apply pyround_mono. apply Rmult_le_compat_r; lra. }
  split; [apply R0; apply Rmult_le_pos; lra|].
  split; [apply R0; apply Rmult_le_pos; lra|].
  split; split.
  - rewrite <- (pyround_0 4). apply pyround_mono. lra.
  - rewrite <- (pyround_1 4). apply pyround_mono. lra.
  - rewrite <- (pyround_0 4). apply pyround_mono. lra.
  - rewrite <- (pyround_1 4). apply pyround_mono. lra.
Qed.

Lemma pick_event_row_bounds_witness :
  0 <= stake row_AB <= pyround (1000 * (2 / 100)) 2
  /\ 0 <= model_p row_AB <= 1.
Proof.
  destruct (pick_event_row_bounds 1000 (1 / 2) (2 / 100) (2 / 100) ∅ 60
              contest_AB row_AB ltac:(lra) ltac:(lra) pick_contest_AB)
    as (Hs & _ & _ & _ & _ & Hm).
  split; assumption.
Defined.

(** ** The score feed *)

Lemma first_rows_spec (api : Z -> Response) (ds : list Z) :
  (first_rows api ds = [] /\
   forall d, In d ds ->
     response_rows (api d) = None \/ response_rows (api d) = Some [])
  \/ (first_rows api ds <> [] /\
      exists pre d post,
        ds = pre ++ d :: post
        /\ response_rows (api d) = Some (first_rows api ds)
        /\ forall d', In d' pre ->
             response_rows (api d') = None \/ response_rows (api d') = Some []).
Proof.
  induction ds as [|d ds IH].
  - left. split; [reflexivity | intros d []].
  - cbn [first_rows].
    destruct (response_rows (api d)) as [[|r rs]|] eqn:Hd.
    + destruct IH as [[He Hall]|[Hne (pre & d0 & post & Hds & Hr & Hpre)]].
      * left. split; [exact He|]. intros d' [<-|Hin]; auto.
      * right. split; [exact Hne|]. exists (d :: pre), d0, post.
        split; [rewrite Hds; reflexivity|]. split; [exact Hr|].
        intros d' [<-|Hin]; auto.
    + right. split; [discriminate|]. exists [], d, ds.
      split; [reflexivity|]. split; [exact Hd|]. intros d' [].
    + destruct IH as [[He Hall]|[Hne (pre & d0 & post & Hds & Hr & Hpre)]].
      * left. split; [exact He|]. intros d' [<-|Hin]; auto.
      * right. split; [exact Hne|]. exists (d :: pre), d0, post.
        split; [rewrite Hds; reflexivity|]. split; [exact Hr|].
        intros d' [<-|Hin]; auto.
Qed.

Lemma response_rows_Some (r : Response) (rows : list ScoreRow) :
  response_rows r = Some rows <->
  exists gs, r = Reply 200 (Some gs) /\ window_rows gs = Some rows.
Proof.
  split.
  - destruct r as [|code [gs|]]; cbn [response_rows]; try discriminate.
    + destruct (Z.eqb_spec code 200) as [->|]; [|discriminate]. eauto.
    + destruct (code =? 200)%Z; discriminate.
  - intros (gs & -> & H). exact H.
Qed.

(** The history comes from the widest window, in the order 365, 180, 120,
    90, 60, 30, 14, 7, 3 days, whose reply has status 200 and reads without
    an exception into at least one row; every wider window failed or gave
    no row, and when all windows do the history is empty. *)
Theorem fetch_scores_first_window (api : Z -> Response) :
  windows = [365; 180; 120; 90; 60; 30; 14; 7; 3]%Z
  /\ (fetch_scores_rows api = [] <->
      forall d, In d windows ->
        response_rows (api d) = None \/ response_rows (api d) = Some [])
  /\ (fetch_scores_rows api <> [] ->
      exists pre d post gs,
        windows = pre ++ d :: post
        /\ api d = Reply 200 (Some gs)
        /\ window_rows gs = Some (fetch_scores_rows api)
        /\ forall d', In d' pre ->
             response_rows (api d') = None \/ response_rows (api d') = Some []).
Proof.
  split; [reflexivity|]. unfold fetch_scores_rows.
  destruct (first_rows_spec api windows)
    as [[He Hall]|[Hne (pre & d & post & Hds & Hr & Hpre)]].
  - split; [split; [intros _; exact Hall | intros _; exact He]|].
    intros Hne. congruence.
  - split.
    + split; [intros He; congruence|]. intros Hall. exfalso.
      assert (Hin : In d windows)
        by (rewrite Hds; apply in_or_app; right; left; reflexivity).
      destruct (Hall d Hin) as [H|H]; rewrite H in Hr; [discriminate|].
      inversion Hr as [Hr']. apply Hne. symmetry. exact Hr'.
    + intros _. apply response_rows_Some in Hr as (gs & Hapi & Hw).
      exists pre, d, post, gs. auto.
Qed.

Lemma fetch_scores_first_window_witness :
  exists pre d post gs,
    windows = pre ++ d :: post
    /\ (fun d : Z => if (d =? 180)%Z
                     then Reply 200 (Some [mkGame true (Some "A"%string) (Some "B"%string)
                                             (Some [mkScoreEntry (Some (Some "A"%string)) (Some 20);
                                                    mkScoreEntry (Some (Some "B"%string)) (Some 10)])
                                             (Some 7%Z)])
                     else Reply 500 None) d = Reply 200 (Some gs)
    /\ d = 180%Z.
Proof.
  pose proof (fetch_scores_first_window
                (fun d : Z => if (d =? 180)%Z
                     then Reply 200 (Some [mkGame true (Some "A"%string) (Some "B"%string)
                                             (Some [mkScoreEntry (Some (Some "A"%string)) (Some 20);
                                                    mkScoreEntry (Some (Some "B"%string)) (Some 10)])
                                             (Some 7%Z)])
                     else Reply 500 None)) as (_ & _ & H).
  destruct H as (pre & d & post & gs & Hw & Hapi & Hrows & Hpre).
  { unfold fetch_scores_rows, windows. cbn. discriminate. }
  exists pre, d, post, gs. split; [exact Hw|]. split; [exact Hapi|].
  cbv beta in Hapi. destruct (Z.eqb_spec d 180) as [E|N]; [exact E | discriminate].
Defined.

Lemma window_rows_cons (g : Game) (gs : list Game) :
  window_rows (g :: gs) =
    match game_row g, window_rows gs with
    | Some r, Some rs => Some (match r with Some x => x :: rs | None => rs end)
    | _, _ => None
    end.
Proof. cbn [window_rows]. destruct (game_row g); reflexivity. Qed.

(** A reply is read all or nothing: one game whose reading raises voids
    the whole reply, rows already gathered included; otherwise the rows are
    those of the games that qualify, in the order of the reply. *)
Theorem window_rows_all_or_nothing (gs : list Game) :
  (window_rows gs = None <-> exists g, In g gs /\ game_row g = None)
  /\ (forall rows, window_rows gs = Some rows ->
        rows = flat_map (fun g => match game_row g with
                                  | Some (Some x) => [x]
                                  | _ => []
                                  end) gs).
Proof.
  induction gs as [|g gs [IHn IHs]].
  - split; [split; [discriminate | intros (g & [] & _)]|].
    intros rows [= <-]. reflexivity.
  - rewrite window_rows_cons. split.
    + destruct (game_row g) as [r|] eqn:Hg.
      * destruct (window_rows gs) as [rs|] eqn:Hw.
        -- split; [discriminate|]. intros (g' & [<-|Hin] & Hn); [congruence|].
           assert (Hnone : None = None :> option (list ScoreRow)) by reflexivity.
           exfalso. destruct IHn as [_ IHn].
           specialize (IHn (ex_intro _ g' (conj Hin Hn))). discriminate.
        -- split; [|reflexivity]. intros _.
           destruct IHn as [IHn _]. destruct (IHn eq_refl) as (g' & Hin & Hn).
           exists g'. split; [right; exact Hin | exact Hn].
      * split; [|reflexivity]. intros _. exists g. split; [left; reflexivity | exact Hg].
    + intros rows. cbn [flat_map].
      destruct (game_row g) as [r|]; [|discriminate].
      destruct (window_rows gs) as [rs|]; [|discriminate].
      intros [= <-]. pose proof (IHs rs eq_refl) as E.
      destruct r; [cbn [app]; f_equal; exact E | exact E].
Qed.

Lemma window_rows_all_or_nothing_witness :
  window_rows
    [mkGame true (Some "A"%string) (Some "B"%string)
       (Some [mkScoreEntry (Some (Some "A"%string)) (Some 20);
              mkScoreEntry (Some (Some "B"%string)) (Some 10)]) (Some 7%Z);
     mkGame true (Some "C"%string) (Some "D"%string)
       (Some [mkScoreEntry (Some (Some "C"%string)) None]) (Some 8%Z)]
  = None.
Proof.
  apply window_rows_all_or_nothing.
  exists (mkGame true (Some "C"%string) (Some "D"%string)
            (Some [mkScoreEntry (Some (Some "C"%string)) None]) (Some 8%Z)).
  split; [right; left; reflexivity | reflexivity].
Defined.

Lemma score_dict_snoc (ss : list ScoreEntry) (s : ScoreEntry) :
  score_dict (ss ++ [s]) =
    match score_dict ss, s_name s, s_score s with
    | Some d, Some nm, Some v =>
        Some (match nm with Some k => <[k := v]> d | None => d end)
    | _, _, _ => None
    end.
Proof. unfold score_dict. rewrite fold_left_app. reflexivity. Qed.

Lemma score_dict_Some (ss : list ScoreEntry) (pm : gmap string R) :
  score_dict ss = Some pm ->
  (forall s, In s ss -> s_name s <> None /\ s_score s <> None)
  /\ (forall k v, pm !! k = Some v ->
        exists s, In s ss /\ s_name s = Some (Some k) /\ s_score s = Some v).
Proof.
  revert pm. induction ss as [|s ss IH] using rev_ind; intros pm.
  - intros [= <-]. split; [intros s [] | intros k v Hk].
    rewrite lookup_empty in Hk. discriminate.
  - rewrite score_dict_snoc.
    destruct (score_dict ss) as [d|]; [|discriminate].
    destruct (s_name s) as [nm|] eqn:Hn; [|discriminate].
    destruct (s_score s) as [v|] eqn:Hv; [|discriminate].
    intros [= <-]. destruct (IH d eq_refl) as [Hall Hlook]. split.
    + intros s' Hin. apply in_app_or in Hin as [Hin|[<-|[]]]; [auto|].
      rewrite Hn, Hv. split; discriminate.
    + intros k v' Hk.
      assert (Hold : d !! k = Some v' ->
                     exists s0, In s0 (ss ++ [s])
                                /\ s_name s0 = Some (Some k) /\ s_score s0 = Some v').
      { intros Hd. destruct (Hlook k v' Hd) as (s0 & Hin & H1 & H2).
        exists s0. split; [apply in_or_app; left; exact Hin | auto]. }
      destruct nm as [k0|]; [|auto].
      destruct (String.eqb_spec k0 k) as [->|Hne].
      * rewrite lookup_insert_eq in Hk. injection Hk as <-.
        exists s. split; [apply in_or_app; right; left; reflexivity | auto].
      * rewrite lookup_insert_ne in Hk by exact Hne. auto.
Qed.

(** A row of the history is a completed game with two named sides, a
    readable kickoff and a score list in which every entry reads and both
    sides are listed; its scores are scores listed for those sides. *)
Theorem game_row_sound (g : Game) (t : Z) (m : Match) :
  game_row g = Some (Some (t, m)) ->
  g_completed g = true
  /\ g_home g = Some (home m) /\ g_away g = Some (away m)
  /\ home m <> ""%string /\ away m <> ""%string
  /\ g_commence g = Some t
  /\ exists ss,
       g_scores g = Some ss
       /\ (forall s, In s ss -> s_name s <> None /\ s_score s <> None)
       /\ (exists s, In s ss /\ s_name s = Some (Some (home m))
                     /\ s_score s = Some (hs m))
       /\ (exists s, In s ss /\ s_name s = Some (Some (away m))
                     /\ s_score s = Some (as_ m)).
Proof.
  unfold game_row.
  destruct (g_completed g); cbn [negb]; [|discriminate].
  destruct (truthy_name (g_home g)) as [h|] eqn:Hh; [|discriminate].
  destruct (truthy_name (g_away g)) as [a|] eqn:Ha; [|discriminate].
  destruct (g_scores g) as [ss|]; [|discriminate].
  destruct (score_dict ss) as [pm|] eqn:Hpm; [|discriminate].
  destruct (pm !! h) as [x|] eqn:Hx; [|discriminate].
  destruct (pm !! a) as [y|] eqn:Hy; [|discriminate].
  destruct (g_commence g) as [t'|]; [|discriminate].
  intros [= <- <-]. cbn [home away hs as_].
  destruct (truthy_name_nonempty _ _ Hh) as [Eh Nh].
  destruct (truthy_name_nonempty _ _ Ha) as [Ea Na].
  destruct (score_dict_Some ss pm Hpm) as [Hall Hlook].
  repeat (split; [first [reflexivity | assumption]|]).
  exists ss. split; [reflexivity|]. split; [exact Hall|].
  split; [apply Hlook, Hx | apply Hlook, Hy].
Qed.

Lemma game_row_sound_witness :
  g_completed
    (mkGame true (Some "A"%string) (Some "B"%string)
       (Some [mkScoreEntry (Some (Some "A"%string)) (Some 20);
              mkScoreEntry (Some (Some "B"%string)) (Some 10)]) (Some 7%Z)) = true.
Proof.
  apply (game_row_sound
           (mkGame true (Some "A"%string) (Some "B"%string)
              (Some [mkScoreEntry (Some (Some "A"%string)) (Some 20);
                     mkScoreEntry (Some (Some "B"%string)) (Some 10)]) (Some 7%Z))
           7%Z (mkMatch "A" "B" 20 10)).
  reflexivity.
Defined.

(** ** Margin of victory and the rows of a run *)

(** With a positive [K] the update rate is [K] after a tie and grows
    strictly with the size of the margin, whichever side won. *)
Theorem k_eff_of_margin (K : R) (r1 r2 : Match) :
  0 < K ->
  (hs r1 = as_ r1 -> k_eff_of K r1 = K)
  /\ K <= k_eff_of K r1
  /\ (Rabs (hs r1 - as_ r1) < Rabs (hs r2 - as_ r2) ->
      k_eff_of K r1 < k_eff_of K r2).
Proof.
  intros HK. split; [|split].
  - intros E. unfold k_eff_of. rewrite E.
    replace (as_ r1 - as_ r1) with 0 by lra.
    rewrite Rabs_R0, Rplus_0_r, ln_1. lra.
  - apply k_eff_of_lower, HK.
  - intros Hlt. unfold k_eff_of. apply Rmult_lt_compat_l; [exact HK|].
    apply Rplus_lt_compat_l, ln_increasing.
    + pose proof (Rabs_pos (hs r1 - as_ r1)). lra.
    + lra.
Qed.

Lemma k_eff_of_margin_witness :
  k_eff_of 30 (mkMatch "A" "B" 12 10) < k_eff_of 30 (mkMatch "A" "B" 10 30).
Proof.
  apply (k_eff_of_margin 30 (mkMatch "A" "B" 12 10) (mkMatch "A" "B" 10 30)); [lra|].
  cbn [hs as_]. rewrite Rabs_right by lra. rewrite Rabs_left by lra. lra.
Defined.

Lemma collect_rows_origin (B KF EM MK : R) (rt : gmap string R) (HFA : R)
    (events : list Event) (row : Row) :
  In row (collect_rows B KF EM MK rt HFA events) ->
  exists ev, In ev events /\ pick_event B KF EM MK rt HFA ev = Some row.
Proof.
  unfold collect_rows. intros Hin.
  apply list_elem_of_In, list_elem_of_omap in Hin as (ev & Hev & Hp).
  exists ev. split; [apply list_elem_of_In; exact Hev | exact Hp].
Qed.

Lemma collect_rows_length (B KF EM MK : R) (rt : gmap string R) (HFA : R)
    (events : list Event) :
  (length (collect_rows B KF EM MK rt HFA events) <= length events)%nat.
Proof.
  unfold collect_rows. induction events as [|ev events IH]; [reflexivity|].
  cbn [omap list_omap length].
  destruct (pick_event B KF EM MK rt HFA ev); cbn [length]; lia.
Qed.

(** The report of a run never has more rows than the feed has contests,
    each of its rows is the row of a contest of the feed under the model
    [main] trained, and a feed from which nothing qualifies gives no
    report. *)
Theorem main_picks_rows_from_feed (B KF EM MK : R) (hist : list Match)
    (events : list Event) :
  let pick := pick_event B KF EM MK (fst (train hist)) (snd (train hist)) in
  (forall out, main_picks B KF EM MK hist events = Some out ->
     out <> []
     /\ (length out <= length events)%nat
     /\ (forall row, In row out -> exists ev, In ev events /\ pick ev = Some row))
  /\ ((forall ev, In ev events -> pick ev = None) ->
      main_picks B KF EM MK hist events = None).
Proof.
  intros pick. rewrite main_picks_eq.
  set (rows := collect_rows B KF EM MK (fst (train hist)) (snd (train hist)) events).
  split.
  - intros out Hout.
    assert (Hne : rows <> []) by (destruct rows; [discriminate | discriminate]).
    apply sort_values_Some in Hout. subst out.
    pose proof (stable_sort_perm rows) as Hperm.
    split.
    { intros E. rewrite E in Hperm. apply Permutation_nil_r in Hperm. contradiction. }
    split.
    { rewrite <- (Permutation_length Hperm). apply collect_rows_length. }
    intros row Hin. apply (collect_rows_origin B KF EM MK _ _ events).
    apply Permutation_sym in Hperm. exact (Permutation_in _ Hperm Hin).
  - intros Hall.
    assert (E : rows = []).
    { destruct rows as [|row rest] eqn:Hr; [reflexivity|]. exfalso.
      assert (Hin : In row rows) by (rewrite Hr; left; reflexivity).
      destruct (collect_rows_origin _ _ _ _ _ _ _ _ Hin) as (ev & Hev & Hp).
      fold pick in Hp. rewrite (Hall ev Hev) in Hp. discriminate. }
    rewrite E. reflexivity.
Qed.

Lemma main_picks_rows_from_feed_witness :
  (length [row_EF; row_AB] <= length [contest_AB; contest_EF])%nat.
Proof.
  pose proof (main_picks_rows_from_feed 1000 (1 / 2) (2 / 100) (2 / 100) []
                [contest_AB; contest_EF]) as [H _].
  apply (H [row_EF; row_AB]).
  rewrite main_picks_eq. cbn [train fst snd].
  rewrite collect_rows_AB_EF. cbn [sort_values]. rewrite stable_sort_AB_EF. reflexivity.
Defined.

(** * The probability utilities under rounding *)

(** ** What a rounding keeps *)

Lemma rounding_nonneg (rnd : R -> R) (x : R) :
  rounding rnd -> 0 <= x -> 0 <= rnd x.
Proof.
  intros H Hx. rewrite <- (rnd_0 rnd H). apply (rnd_mono rnd H). exact Hx.
Qed.

Lemma rounding_le_1 (rnd : R -> R) (x : R) :
  rounding rnd -> x <= 1 -> rnd x <= 1.
Proof.
  intros H Hx. rewrite <- (rnd_1 rnd H). apply (rnd_mono rnd H). exact Hx.
Qed.

Lemma rounding_ge_1 (rnd : R -> R) (x : R) :
  rounding rnd -> 1 <= x -> 1 <= rnd x.
Proof.
  intros H Hx. rewrite <- (rnd_1 rnd H). apply (rnd_mono rnd H). exact Hx.
Qed.

Lemma rounding_unit (rnd : R -> R) (x : R) :
  rounding rnd -> 0 <= x <= 1 -> 0 <= rnd x <= 1.
Proof.
  intros H [H0 H1]. split; [apply rounding_nonneg | apply rounding_le_1]; assumption.
Qed.

Lemma ratio_unit (p s : R) : 0 <= p -> p <= s -> 0 < s -> 0 <= p / s <= 1.
Proof.
  intros Hp Hps Hs. unfold Rdiv. split.
  - apply Rmult_le_pos; [exact Hp | left; apply Rinv_0_lt_compat; exact Hs].
  - apply (Rmult_le_reg_r s); [exact Hs|].
    rewrite Rmult_assoc, Rinv_l by lra. lra.
Qed.

(** Exact arithmetic is the rounding that changes nothing. *)
Lemma rounding_exact : rounding (fun x : R => x).
Proof. constructor; intros; lra || reflexivity. Qed.

Lemma power10_exact : power10 (fun y : R => Some (Rpower 10 y)).
Proof.
  constructor.
  - intros y p [= <-]. left. apply Rpower10_pos.
  - rewrite Rpower_O by lra. reflexivity.
Qed.

(** ** Rounding to four decimals is a rounding *)

Lemma pyround_grid (z : Z) (k : nat) : pyround (IZR z / 10 ^ k) k = IZR z / 10 ^ k.
Proof.
  pose proof (pow10_pos k) as Hp. unfold pyround.
  replace (IZR z / 10 ^ k * 10 ^ k) with (IZR z) by (field; lra).
  rewrite round_half_even_IZR. reflexivity.
Qed.

Lemma rounding_round4 : rounding round4.
Proof.
  constructor; unfold round4.
  - intros x y Hxy. apply pyround_mono. exact Hxy.
  - intros x. unfold pyround at 2. apply pyround_grid.
  - apply pyround_0.
  - replace (1 / 2) with (IZR 5000 / 10 ^ 4) by (simpl; lra). apply pyround_grid.
  - apply pyround_1.
  - replace 2 with (IZR 20000 / 10 ^ 4) by (simpl; lra). apply pyround_grid.
Qed.

Lemma power10_round4 : power10 pow10_round4.
Proof.
  constructor; unfold pow10_round4.
  - intros y p [= <-]. apply rounding_nonneg; [exact rounding_round4|].
    left. apply Rpower10_pos.
  - rewrite Rpower_O by lra. rewrite (rnd_1 _ rounding_round4). reflexivity.
Qed.

Lemma round4_pos (x : R) : 1 / 10000 <= x -> 0 < round4 x.
Proof.
  intros Hx. unfold round4, pyround.
  pose proof (round_half_even_near (x * 10 ^ 4)) as Hn.
  assert (H1 : 1 <= x * 10 ^ 4) by (simpl; lra).
  assert (Hz : (0 < round_half_even (x * 10 ^ 4))%Z).
  { apply lt_IZR. lra. }
  apply Rdiv_lt_0_compat; [apply IZR_lt; exact Hz | apply pow10_pos].
Qed.

Lemma round_half_even_nearest (z : Z) (y : R) :
  IZR z - 1 / 2 < y < IZR z + 1 / 2 -> round_half_even y = z.
Proof.
  intros Hy. pose proof (round_half_even_near y) as Hn.
  assert (Hz : (z - 1 < round_half_even y < z + 1)%Z).
  { split; apply lt_IZR; rewrite ?minus_IZR, ?plus_IZR; lra. }
  lia.
Qed.

Lemma round4_nearest (z : Z) (x : R) :
  IZR z - 1 / 2 < x * 10000 < IZR z + 1 / 2 -> round4 x = IZR z / 10000.
Proof.
  intros Hx. unfold round4, pyround.
  replace (10 ^ 4) with 10000 by (simpl; lra).
  rewrite (round_half_even_nearest z) by exact Hx. reflexivity.
Qed.

Lemma round4_0 : round4 0 = 0.
Proof. apply pyround_0. Qed.

Lemma round4_1 : round4 1 = 1.
Proof. apply pyround_1. Qed.

Lemma Rpower10_neg_nat (n : nat) : Rpower 10 (- INR n) = / 10 ^ n.
Proof.
  rewrite Rpower_Ropp, Rpower_pow by lra. reflexivity.
Qed.

(** ** De-vigorization under rounding *)

Lemma devig_two_way_rnd_None_iff (rnd : R -> R) (a b : pyval) :
  devig_two_way_rnd rnd a b = DevigNone <-> invalid_price a \/ invalid_price b.
Proof.
  unfold devig_two_way_rnd, invalid_price.
  destruct (is_number a) eqn:Ha, (is_number b) eqn:Hb; simpl;
    try (split; [intros _; auto | reflexivity]).
  destruct (Rle_dec (num a) 1) as [La|La].
  { split; [intros _; left; right; auto | reflexivity]. }
  destruct (Rle_dec (num b) 1) as [Lb|Lb].
  { split; [intros _; right; right; auto | reflexivity]. }
  split.
  - destruct (Req_dec_T _ 0); discriminate.
  - intros [[H|[_ H]]|[H|[_ H]]]; try discriminate; contradiction.
Qed.

Lemma devig_two_way_rnd_valid (rnd : R -> R) (a b : pyval) :
  rounding rnd ->
  is_number a = true -> is_number b = true -> 1 < num a -> 1 < num b ->
  let pa := rnd (1 / num a) in
  let pb := rnd (1 / num b) in
  let s := rnd (pa + pb) in
  (devig_two_way_rnd rnd a b = DevigZeroDivision /\ pa = 0 /\ pb = 0)
  \/ (devig_two_way_rnd rnd a b = DevigPair (rnd (pa / s)) (rnd (pb / s))
      /\ 0 <= rnd (pa / s) <= 1 /\ 0 <= rnd (pb / s) <= 1).
Proof.
  intros H Ha Hb La Lb pa pb s.
  assert (Hpa : 0 <= pa).
  { apply rounding_nonneg; [exact H|]. left. apply Rdiv_lt_0_compat; lra. }
  assert (Hpb : 0 <= pb).
  { apply rounding_nonneg; [exact H|]. left. apply Rdiv_lt_0_compat; lra. }
  assert (Has : pa <= s).
  { apply Rle_trans with (rnd pa).
    - unfold pa. rewrite (rnd_idem rnd H). lra.
    - apply (rnd_mono rnd H). lra. }
  assert (Hbs : pb <= s).
  { apply Rle_trans with (rnd pb).
    - unfold pb. rewrite (rnd_idem rnd H). lra.
    - apply (rnd_mono rnd H). lra. }
  unfold devig_two_way_rnd. rewrite Ha, Hb. simpl.
  destruct (Rle_dec (num a) 1); [lra|].
  destruct (Rle_dec (num b) 1); [lra|].
  fold pa pb s.
  destruct (Req_dec_T s 0) as [Es|Ns].
  - left. split; [reflexivity|]. split; lra.
  - right. split; [reflexivity|].
    assert (Hs : 0 < s) by lra.
    split; apply rounding_unit; try exact H; apply ratio_unit; assumption.
Qed.

Lemma devig_two_way_rnd_exact (a b : pyval) :
  devig_two_way_rnd (fun x : R => x) a b =
    match devig_two_way a b with
    | Some (pa, pb) => DevigPair pa pb
    | None => DevigNone
    end.
Proof.
  unfold devig_two_way_rnd, devig_two_way.
  destruct (negb (is_number a && is_number b)); [reflexivity|].
  destruct (Rle_dec (num a) 1) as [|La]; [reflexivity|].
  destruct (Rle_dec (num b) 1) as [|Lb]; [reflexivity|].
  cbv zeta.
  destruct (Req_dec_T (1 / num a + 1 / num b) 0) as [E|_]; [|reflexivity].
  exfalso.
  assert (0 < 1 / num a) by (apply Rdiv_lt_0_compat; lra).
  assert (0 < 1 / num b) by (apply Rdiv_lt_0_compat; lra).
  lra.
Qed.

(** On binary64 the prices 1e17 and 1.5 are shared out as 1.5e-17 and
    exactly 1.0: the reciprocal of the first is lost when the two are added,
    and the second share is not inside the open interval. *)
Lemma devig_two_way_f64_reaches_one :
  devig_two_way_f64 1e17 1.5 = Some (0x1.14b37f4b51f72p-56%float, 1%float).
Proof. vm_compute. reflexivity. Qed.

(** C3, as the code has it.  [devig_two_way] answers [(None, None)] exactly
    when one of the two inputs is not a number or is at most 1, in particular
    at [(1.0, 2.0)] and [(0, 2.0)].  For numeric prices both above 1 it
    computes the reciprocals divided by their sum: in exact arithmetic a pair
    that sums to 1 with both parts strictly between 0 and 1; under any
    rounding either the last division raises, and then both reciprocals have
    rounded to 0, or both parts returned lie between 0 and 1, the ends
    included.  Exact arithmetic is the rounding that changes nothing. *)
Theorem devig_two_way_rounded_contract :
  (forall a b : pyval,
      devig_two_way a b = None <-> invalid_price a \/ invalid_price b)
  /\ devig_two_way (PyFloat 1) (PyFloat 2) = None
  /\ devig_two_way (PyInt 0) (PyFloat 2) = None
  /\ (forall a b : pyval,
        is_number a = true -> is_number b = true -> 1 < num a -> 1 < num b ->
        exists pa pb : R,
          devig_two_way a b = Some (pa, pb)
          /\ pa = (1 / num a) / (1 / num a + 1 / num b)
          /\ pb = (1 / num b) / (1 / num a + 1 / num b)
          /\ pa + pb = 1
          /\ 0 < pa < 1 /\ 0 < pb < 1)
  /\ (forall (rnd : R -> R) (a b : pyval),
        devig_two_way_rnd rnd a b = DevigNone <-> invalid_price a \/ invalid_price b)
  /\ (forall (rnd : R -> R) (a b : pyval),
        rounding rnd ->
        is_number a = true -> is_number b = true -> 1 < num a -> 1 < num b ->
        (devig_two_way_rnd rnd a b = DevigZeroDivision
         /\ rnd (1 / num a) = 0 /\ rnd (1 / num b) = 0)
        \/ (exists pa pb : R,
              devig_two_way_rnd rnd a b = DevigPair pa pb
              /\ pa = rnd (rnd (1 / num a) / rnd (rnd (1 / num a) + rnd (1 / num b)))
              /\ pb = rnd (rnd (1 / num b) / rnd (rnd (1 / num a) + rnd (1 / num b)))
              /\ 0 <= pa <= 1 /\ 0 <= pb <= 1))
  /\ (forall a b : pyval,
        devig_two_way_rnd (fun x : R => x) a b =
          match devig_two_way a b with
          | Some (pa, pb) => DevigPair pa pb
          | None => DevigNone
          end).
Proof.
  split; [exact devig_two_way_None_iff|].
  split.
  { apply devig_two_way_None_iff. left. right. simpl. split; [reflexivity|lra]. }
  split.
  { apply devig_two_way_None_iff. left. right. simpl. split; [reflexivity|lra]. }
  split.
  { intros a b Ha Hb La Lb.
    destruct (normalized_pair (num a) (num b) La Lb) as (Hs & H1 & H2).
    eexists _, _. split; [apply devig_two_way_valid; assumption|].
    repeat split; first [reflexivity | lra]. }
  split; [exact devig_two_way_rnd_None_iff|].
  split; [|exact devig_two_way_rnd_exact].
  intros rnd a b H Ha Hb La Lb.
  destruct (devig_two_way_rnd_valid rnd a b H Ha Hb La Lb) as [Hz|(Hp & Hx & Hy)].
  - left. exact Hz.
  - right. eexists _, _. split; [exact Hp|]. repeat split; first [reflexivity | lra].
Qed.

Lemma devig_two_way_rounded_contract_witness :
  exists pa pb : R,
    devig_two_way_rnd round4 (PyFloat (21 / 10)) (PyFloat (19 / 10)) = DevigPair pa pb
    /\ 0 <= pa <= 1 /\ 0 <= pb <= 1.
Proof.
  destruct devig_two_way_rounded_contract as (_ & _ & _ & _ & _ & Hrnd & _).
  destruct (Hrnd round4 (PyFloat (21 / 10)) (PyFloat (19 / 10)) rounding_round4)
    as [(_ & Hz & _)|(pa & pb & Hd & _ & _ & Ha & Hb)];
    [reflexivity | reflexivity | simpl; lra | simpl; lra | |].
  - exfalso. cbn [num] in Hz.
    assert (Hpos : 0 < round4 (1 / (21 / 10))) by (apply round4_pos; lra).
    lra.
  - exists pa, pb. auto.
Defined.

(** Rounding to four decimals shows both ends.  The reciprocal of 100000
    rounds to 0, so the other share is 1; the reciprocals of two prices of a
    million both round to 0, and the division raises. *)
Example devig_two_way_rnd_ends :
  devig_two_way_rnd round4 (PyInt 100000) (PyFloat (3 / 2)) = DevigPair 0 1
  /\ devig_two_way_rnd round4 (PyInt 1000000) (PyInt 1000000) = DevigZeroDivision.
Proof.
  split.
  - unfold devig_two_way_rnd. cbn [is_number num andb negb].
    destruct (Rle_dec 100000 1); [lra|].
    destruct (Rle_dec (3 / 2) 1); [lra|].
    cbv zeta.
    assert (Ea : round4 (1 / 100000) = 0).
    { rewrite (round4_nearest 0) by lra. lra. }
    assert (Eb : round4 (1 / (3 / 2)) = 6667 / 10000).
    { rewrite (round4_nearest 6667) by lra. reflexivity. }
    rewrite Ea, Eb.
    assert (Es : round4 (0 + 6667 / 10000) = 6667 / 10000).
    { rewrite (round4_nearest 6667) by lra. reflexivity. }
    rewrite Es.
    destruct (Req_dec_T (6667 / 10000) 0); [lra|].
    replace (0 / (6667 / 10000)) with 0 by lra.
    replace (6667 / 10000 / (6667 / 10000)) with 1 by lra.
    rewrite round4_0, round4_1. reflexivity.
  - unfold devig_two_way_rnd. cbn [is_number num andb negb].
    destruct (Rle_dec 1000000 1); [lra|].
    cbv zeta.
    assert (Ea : round4 (1 / 1000000) = 0).
    { rewrite (round4_nearest 0) by lra. lra. }
    rewrite Ea. replace (0 + 0) with 0 by lra. rewrite round4_0.
    destruct (Req_dec_T 0 0); [reflexivity | contradiction].
Qed.

(** ** The logistic transform under rounding *)

Lemma logistic_rnd_0 (rnd : R -> R) (pow10 : R -> option R) :
  rounding rnd -> power10 pow10 -> logistic_rnd rnd pow10 0 = Some (1 / 2).
Proof.
  intros H P. unfold logistic_rnd.
  replace (- 0 / 400) with 0 by lra.
  rewrite (rnd_0 rnd H), (pow10_0 pow10 P).
  replace (1 + 1) with 2 by lra.
  rewrite (rnd_2 rnd H), (rnd_half rnd H). reflexivity.
Qed.

Lemma logistic_rnd_unit (rnd : R -> R) (pow10 : R -> option R) (x v : R) :
  rounding rnd -> power10 pow10 ->
  logistic_rnd rnd pow10 x = Some v -> 0 <= v <= 1.
Proof.
  intros H P. unfold logistic_rnd.
  destruct (pow10 (rnd (- x / 400))) as [p|] eqn:Ep; [|discriminate].
  intros [= <-].
  pose proof (pow10_nonneg pow10 P _ _ Ep) as Hp.
  assert (Hd : 1 <= rnd (1 + p)) by (apply rounding_ge_1; [exact H | lra]).
  apply rounding_unit; [exact H|]. apply ratio_unit; lra.
Qed.

Lemma logistic_rnd_None_iff (rnd : R -> R) (pow10 : R -> option R) (x : R) :
  logistic_rnd rnd pow10 x = None <-> pow10 (rnd (- x / 400)) = None.
Proof.
  unfold logistic_rnd. destruct (pow10 (rnd (- x / 400))); split; congruence.
Qed.

Lemma logistic_rnd_mono (rnd : R -> R) (pow10 : R -> option R) (x y vx vy : R) :
  rounding rnd -> power10 pow10 -> pow10_monotone pow10 ->
  x <= y ->
  logistic_rnd rnd pow10 x = Some vx -> logistic_rnd rnd pow10 y = Some vy ->
  vx <= vy.
Proof.
  intros H P M Hxy. unfold logistic_rnd.
  destruct (pow10 (rnd (- x / 400))) as [p|] eqn:Ep; [|discriminate].
  destruct (pow10 (rnd (- y / 400))) as [q|] eqn:Eq; [|discriminate].
  intros [= <-] [= <-].
  assert (Hyx : rnd (- y / 400) <= rnd (- x / 400)) by (apply (rnd_mono rnd H); lra).
  pose proof (M _ _ _ _ Hyx Eq Ep) as Hqp.
  pose proof (pow10_nonneg pow10 P _ _ Eq) as Hq.
  assert (Hdq : 1 <= rnd (1 + q)) by (apply rounding_ge_1; [exact H | lra]).
  assert (Hd : rnd (1 + q) <= rnd (1 + p)) by (apply (rnd_mono rnd H); lra).
  apply (rnd_mono rnd H). unfold Rdiv. rewrite !Rmult_1_l.
  apply Rinv_le_contravar; lra.
Qed.

Lemma logistic_rnd_exact (x : R) :
  logistic_rnd (fun r : R => r) (fun y : R => Some (Rpower 10 y)) x = Some (logistic x).
Proof. reflexivity. Qed.

(** On binary64 the transform is exactly 1.0 at 6400, where [10.0 ** -16.0]
    is lost when it is added to 1.0, and it takes the same value at 6800:
    it has left the open interval and has stopped increasing.  The last
    digit of the power plays no part: a power as large as [2 ** -53] is lost
    in the same way. *)
Lemma logistic_f64_reaches_one :
  logistic_f64 pow10_sample 0 = 0.5%float
  /\ logistic_f64 pow10_sample 6400 = 1%float
  /\ logistic_f64 pow10_sample 6800 = 1%float
  /\ logistic_f64 (fun _ => 0x1p-53%float) 6400 = 1%float.
Proof. repeat split; vm_compute; reflexivity. Qed.

(** C4, as the code has it.  The logistic transform takes 0 to one half.  In
    exact arithmetic it is strictly increasing and every output lies strictly
    between 0 and 1.  Under any rounding it still takes 0 to one half; a call
    fails exactly when the power overflows; every output lies between 0 and
    1, the ends included; and it does not decrease as long as the library's
    power does not.  Exact arithmetic is the rounding that changes nothing. *)
Theorem logistic_rounded_closed_unit :
  logistic 0 = 1 / 2
  /\ (forall x y : R, x < y -> logistic x < logistic y)
  /\ (forall x : R, 0 < logistic x < 1)
  /\ (forall (rnd : R -> R) (pow10 : R -> option R),
        rounding rnd -> power10 pow10 ->
        logistic_rnd rnd pow10 0 = Some (1 / 2)
        /\ (forall x : R,
              logistic_rnd rnd pow10 x = None <-> pow10 (rnd (- x / 400)) = None)
        /\ (forall x v : R, logistic_rnd rnd pow10 x = Some v -> 0 <= v <= 1)
        /\ (pow10_monotone pow10 ->
            forall x y vx vy : R,
              x <= y ->
              logistic_rnd rnd pow10 x = Some vx ->
              logistic_rnd rnd pow10 y = Some vy ->
              vx <= vy))
  /\ (forall x : R,
        logistic_rnd (fun r : R => r) (fun y : R => Some (Rpower 10 y)) x
        = Some (logistic x)).
Proof.
  split; [exact logistic_0|].
  split; [exact logistic_increasing|].
  split; [exact logistic_bounds|].
  split; [|exact logistic_rnd_exact].
  intros rnd pow10 H P.
  split; [apply logistic_rnd_0; assumption|].
  split; [apply logistic_rnd_None_iff|].
  split.
  - intros x v. apply logistic_rnd_unit; assumption.
  - intros M x y vx vy. apply logistic_rnd_mono; assumption.
Qed.

Lemma logistic_rounded_closed_unit_witness :
  logistic_rnd round4 pow10_round4 0 = Some (1 / 2)
  /\ exists v : R, logistic_rnd round4 pow10_round4 60 = Some v /\ 0 <= v <= 1.
Proof.
  destruct logistic_rounded_closed_unit as (_ & _ & _ & Hrnd & _).
  destruct (Hrnd round4 pow10_round4 rounding_round4 power10_round4)
    as (H0 & _ & Hunit & _).
  split; [exact H0|].
  eexists. split; [reflexivity|]. apply (Hunit 60). reflexivity.
Defined.

(** Rounding to four decimals shows the upper end: at 6400 the power, ten to
    the minus sixteen, rounds to 0 and the transform is 1. *)
Example logistic_rnd_reaches_one :
  logistic_rnd round4 pow10_round4 6400 = Some 1.
Proof.
  unfold logistic_rnd, pow10_round4.
  assert (Ey : round4 (Ropp 6400 / 400) = - INR 16).
  { rewrite (round4_nearest (-160000)) by lra. simpl. lra. }
  rewrite Ey, Rpower10_neg_nat.
  assert (Ep : round4 (/ 10 ^ 16) = 0).
  { rewrite (round4_nearest 0) by (simpl; lra). lra. }
  rewrite Ep. replace (1 + 0) with 1 by lra. rewrite round4_1.
  replace (1 / 1) with 1 by lra. rewrite round4_1. reflexivity.
Qed.
